(** * SmartDataLoader: a shallow embedding of [smartdataloader.py]

    The loader pairs the encoded documents of two vocabularies, shuffles
    the pairs once with numpy's seeded generator and then yields batches
    of [batch_size] pairs, each padded in place to the longest document
    of the batch and transposed to a time-major tensor.

    Python objects that the code mutates (the inner token lists) live in
    an explicit heap and are named by references, so that aliasing
    between the caller's lists and the loader's lists is visible.
    Objects that are only rebound (the outer document lists, the
    vocabulary attributes) are plain values. *)

From stdpp Require Import base list gmap.
From Stdlib Require Import ZArith Lia.

Local Open Scope Z_scope.
Local Open Scope nat_scope.

(** ** Python exceptions and results *)

Inductive PyErr : Type :=
  | ValueError
  | IndexError
  | ZeroDivisionError.

Inductive result (A : Type) : Type :=
  | Ok (a : A)
  | Raise (e : PyErr).
Arguments Ok {A} a.
Arguments Raise {A} e.

#[global] Instance result_ret : MRet result := fun _ a => Ok a.
#[global] Instance result_bind : MBind result := fun _ _ k r =>
  match r with
  | Ok a => k a
  | Raise e => Raise e
  end.

(** ** Python lists *)

Section PyList.
Context {A : Type}.

(** [list.insert(where, x)], with CPython's clamping of the index. *)
Definition py_insert (where_ : Z) (x : A) (l : list A) : list A :=
  let n := Z.of_nat (length l) in
  let w := if (where_ <? 0)%Z
           then (if (where_ + n <? 0)%Z then 0%Z else (where_ + n)%Z)
           else where_ in
  let w := if (n <? w)%Z then n else w in
  take (Z.to_nat w) l ++ x :: drop (Z.to_nat w) l.

(** [for _ in range(pads_needed): l.insert(-1, pad)] on one list. *)
Definition insert_loop (pad : A) (pads_needed : nat) (l : list A) : list A :=
  Nat.iter pads_needed (py_insert (-1) pad) l.

(** The padding branch of [_build_tensor] on the value of one document. *)
Definition pad_to (pad : A) (max_len : nat) (l : list A) : list A :=
  if length l <? max_len then insert_loop pad (max_len - length l) l else l.

(** Where the pads end up: between the last token and the ones before. *)
Definition pads_before_last (pad : A) (k : nat) (l : list A) : list A :=
  take (length l - 1) l ++ replicate k pad ++ drop (length l - 1) l.
End PyList.

(** ** numpy arrays and torch tensors *)

(** Only the shapes [np.array] can return on a list of integer lists are
    kept: a one-dimensional array (the empty outer list) and a matrix. *)
Inductive ndarray : Type :=
  | Arr1 (data : list Z)
  | Arr2 (rows cols : nat) (data : list (list Z)).

Definition shape (a : ndarray) : list nat :=
  match a with
  | Arr1 d => [length d]
  | Arr2 r c _ => [r; c]
  end.

(** [np.array(docs)]: rows of unequal length have no common shape. *)
Definition np_array (docs : list (list Z)) : result ndarray :=
  match docs with
  | [] => Ok (Arr1 [])
  | d :: _ =>
      if forallb (fun d' => length d' =? length d) docs
      then Ok (Arr2 (length docs) (length d) docs)
      else Raise ValueError
  end.

Definition np_transpose (a : ndarray) : ndarray :=
  match a with
  | Arr1 d => Arr1 d
  | Arr2 r c rows =>
      Arr2 c r (map (fun j => map (fun row => nth j row 0%Z) rows) (seq 0 c))
  end.

Definition Tensor : Type := ndarray.
Definition torch_tensor (a : ndarray) : Tensor := a.

(** Column [j] of a time-major tensor: one document of the batch. *)
Definition column (t : Tensor) (j : nat) : list Z :=
  match t with
  | Arr1 _ => []
  | Arr2 _ _ rows => map (fun row => nth j row 0%Z) rows
  end.



(** ** The heap of token lists *)

(** A reference is the address of a Python list of token ids. *)
Abbreviation ref := nat (only parsing).
Abbreviation heap := (list (list Z)) (only parsing).

Definition deref (h : heap) (r : ref) : list Z := default [] (h !! r).

(** [len(doc)] of the object behind a reference. *)
Definition doc_len (h : heap) (r : ref) : nat := length (deref h r).

(** [doc.insert(-1, pad)], [pads_needed] times, on the object itself. *)
Definition insert_pads (r : ref) (pad : Z) (pads_needed : nat) (h : heap) : heap :=
  Nat.iter pads_needed (alter (py_insert (-1) pad) r) h.

(** ** The vocabulary collaborator *)

(** Modelled from the spec: the [Vocabulary] class is imported from a
    module that is not part of the sources; the loader reads two
    attributes of it, the ordered collection of encoded documents and
    the pad-token id. *)
Record Vocabulary : Type := {
  docs_tokens_encoded : list ref;
  PAD_TOKEN : Z
}.

(** [copy.deepcopy] of the document lists: every distinct list object is
    copied once to a fresh address, and the memo keeps shared objects
    shared in the copy. *)
Fixpoint deepcopy_docs (memo : gmap ref ref) (h : heap) (docs : list ref)
  : heap * list ref :=
  match docs with
  | [] => (h, [])
  | r :: rest =>
      match memo !! r with
      | Some r' =>
          let '(h', out) := deepcopy_docs memo h rest in (h', r' :: out)
      | None =>
          let r' := length h in
          let '(h', out) :=
            deepcopy_docs (<[r := r']> memo) (h ++ [deref h r]) rest in
          (h', r' :: out)
      end
  end.

Definition deepcopy (h : heap) (v : Vocabulary) : heap * Vocabulary :=
  let '(h', docs) := deepcopy_docs ∅ h (docs_tokens_encoded v) in
  (h', {| docs_tokens_encoded := docs; PAD_TOKEN := PAD_TOKEN v |}).

(** ** numpy's global generator *)

(** The Mersenne Twister itself is outside the sources: the loader only
    relies on seeding and on bounded draws. *)
Class NumpyRandom : Type := {
  rng_state : Type;
  seed_state : Z -> rng_state;
  random_interval : rng_state -> nat -> nat * rng_state;
  random_interval_le : forall g m, (random_interval g m).1 <= m
}.

Section Shuffle.
Context `{NumpyRandom} {A : Type}.

(** [np.random.seed(seed)]: the seed has to fit 32 unsigned bits. *)
Definition np_random_seed (seed : Z) : result rng_state :=
  if ((0 <=? seed) && (seed <? 2 ^ 32))%Z
  then Ok (seed_state seed) else Raise ValueError.

(** [x[i], x[j] = x[j], x[i]] *)
Definition swap (i j : nat) (x : list A) : list A :=
  match x !! i, x !! j with
  | Some a, Some b => <[j := a]> (<[i := b]> x)
  | _, _ => x
  end.

(** The body of [RandomState.shuffle] on a Python list: for [i] from
    [n - 1] down to [1], draw [j] in [0..i] and swap. *)
Fixpoint shuffle_loop (idxs : list nat) (g : rng_state) (x : list A)
  : list A * rng_state :=
  match idxs with
  | [] => (x, g)
  | i :: rest =>
      let '(j, g') := random_interval g i in
      shuffle_loop rest g' (swap i j x)
  end.

Definition np_random_shuffle (g : rng_state) (x : list A) : list A * rng_state :=
  shuffle_loop (rev (seq 1 (length x - 1))) g x.

(** [zip] applied to the unpacked list of pairs: one tuple per
    component, and no tuple at all when the list is empty. *)
Definition zip_star (joined : list (A * A)) : list (list A) :=
  match joined with
  | [] => []
  | _ => [map fst joined; map snd joined]
  end.

(** [a, b = it]: unpacking into exactly two targets. *)
Definition unpack2 {B : Type} (it : list B) : result (B * B) :=
  match it with
  | [a; b] => Ok (a, b)
  | _ => Raise ValueError
  end.
End Shuffle.

(** ** The loader *)

Record SmartDataLoader : Type := {
  self_input_vocab : Vocabulary;
  self_output_vocab : Vocabulary;
  self_batch_size : Z;
  self_input_docs_tokens_encoded : option (list ref);
  self_output_docs_tokens_encoded : option (list ref);
  self_random_seed : Z;
  self_n_sentences : nat;
  self_PAD_TOKEN : Z
}.

Definition set_docs (docs : list ref) (v : Vocabulary) : Vocabulary :=
  {| docs_tokens_encoded := docs; PAD_TOKEN := PAD_TOKEN v |}.

Section Loader.
Context `{NumpyRandom}.

(** [_shuffle_vocab_data]: the shuffled orderings of both sides, and the
    generator state left behind. *)
Definition _shuffle_vocab_data (random_seed : Z) (input_vocab output_vocab : Vocabulary)
  : result (rng_state * Vocabulary * Vocabulary) :=
  let joined_docs_tokens_encoded :=
    zip (docs_tokens_encoded input_vocab) (docs_tokens_encoded output_vocab) in
  g ← np_random_seed random_seed;
  let '(joined_docs_tokens_encoded, g) :=
    np_random_shuffle g joined_docs_tokens_encoded in
  '(i, o) ← unpack2 (zip_star joined_docs_tokens_encoded);
  Ok (g, set_docs i input_vocab, set_docs o output_vocab).

(** [__init__]. The generator state on entry is forgotten by the
    seeding; a construction that raises leaves the caller's objects as
    they were, so only the successful outcome carries a heap. *)
Definition __init__ (h : heap) (input_vocab output_vocab : Vocabulary)
    (batch_size : Z)
    (input_docs_tokens_encoded output_docs_tokens_encoded : option (list ref))
    (random_seed : Z)
  : result (heap * rng_state * SmartDataLoader) :=
  let '(h, self_input) := deepcopy h input_vocab in
  let '(h, self_output) := deepcopy h output_vocab in
  let '(self_input, self_output) :=
    match input_docs_tokens_encoded, output_docs_tokens_encoded with
    | Some i, Some o => (set_docs i self_input, set_docs o self_output)
    | _, _ => (self_input, self_output)
    end in
  let n_sentences := length (docs_tokens_encoded input_vocab) in
  '(g, self_input, self_output) ←
    _shuffle_vocab_data random_seed self_input self_output;
  Ok (h, g,
      {| self_input_vocab := self_input;
         self_output_vocab := self_output;
         self_batch_size := batch_size;
         self_input_docs_tokens_encoded := input_docs_tokens_encoded;
         self_output_docs_tokens_encoded := output_docs_tokens_encoded;
         self_random_seed := random_seed;
         self_n_sentences := n_sentences;
         self_PAD_TOKEN := PAD_TOKEN input_vocab |}).
End Loader.

(** The first loop of [_build_tensor]: the longest document on each side. *)
Definition max_lens (h : heap) (doc_pairs : list (ref * ref)) : nat * nat :=
  fold_left
    (fun '(input_max_len, output_max_len) doc_pair =>
       (Nat.max input_max_len (doc_len h doc_pair.1),
        Nat.max output_max_len (doc_len h doc_pair.2)))
    doc_pairs (0, 0).

(** One round of the second loop. Both lengths are read before either
    side is padded. *)
Definition pad_doc_pair (pad : Z) (input_max_len output_max_len : nat)
    (h : heap) (doc_pair : ref * ref) : heap :=
  let input_len := doc_len h doc_pair.1 in
  let output_len := doc_len h doc_pair.2 in
  let h :=
    if input_len <? input_max_len
    then insert_pads doc_pair.1 pad (input_max_len - input_len) h else h in
  let h :=
    if output_len <? output_max_len
    then insert_pads doc_pair.2 pad (output_max_len - output_len) h else h in
  h.

(** [_build_tensor]: the collected lists hold the objects themselves, so
    the arrays are read from the heap as the padding loop leaves it. *)
Definition _build_tensor (pad : Z) (h : heap) (doc_pairs : list (ref * ref))
  : heap * result (Tensor * Tensor) :=
  let '(input_max_len, output_max_len) := max_lens h doc_pairs in
  let h := fold_left (pad_doc_pair pad input_max_len output_max_len) doc_pairs h in
  let input_docs := map fst doc_pairs in
  let output_docs := map snd doc_pairs in
  (h,
   input_arr ← np_array (map (deref h) input_docs);
   output_arr ← np_array (map (deref h) output_docs);
   Ok (torch_tensor (np_transpose input_arr),
       torch_tensor (np_transpose output_arr))).

(** What a full run of the generator leaves behind: the heap, the
    batches yielded in order, and the exception that ended it, if any. *)
Abbreviation trace :=
  (list (list Z) * list (Tensor * Tensor) * option PyErr)%type (only parsing).

(** The loop of [__iter__] over the sentence indices still to visit. *)
Fixpoint iter_loop (self : SmartDataLoader) (idxs : list nat) (h : heap)
    (batch : Z) (collected : list (ref * ref)) : trace :=
  match idxs with
  | [] => (h, [], None)
  | sent_idx :: rest =>
      let batch := (batch + 1)%Z in
      match docs_tokens_encoded (self_input_vocab self) !! sent_idx,
            docs_tokens_encoded (self_output_vocab self) !! sent_idx with
      | Some i, Some o =>
          let collected := collected ++ [(i, o)] in
          if (batch =? self_batch_size self)%Z then
            match _build_tensor (self_PAD_TOKEN self) h collected with
            | (h, Ok t) =>
                let '(h, ts, e) := iter_loop self rest h 0%Z [] in
                (h, t :: ts, e)
            | (h, Raise e) => (h, [], Some e)
            end
          else iter_loop self rest h batch collected
      | _, _ => (h, [], Some IndexError)
      end
  end.

Definition __iter__ (self : SmartDataLoader) (h : heap) : trace :=
  iter_loop self (seq 0 (self_n_sentences self)) h 0%Z [].

Definition __len__ (self : SmartDataLoader) : result Z :=
  if (self_batch_size self =? 0)%Z then Raise ZeroDivisionError
  else Ok (Z.of_nat (self_n_sentences self) / self_batch_size self)%Z.

(** ** The loader seen from the caller *)

Section Run.
Context `{NumpyRandom}.

(** The documents behind a list of paired references. *)
Definition pair_values (h : heap) (ps : list (ref * ref))
  : list (list Z * list Z) :=
  map (fun p => (deref h p.1, deref h p.2)) ps.

(** The pairs the loader walks, in shuffled order. *)
Definition shuffled_pairs (self : SmartDataLoader) : list (ref * ref) :=
  zip (docs_tokens_encoded (self_input_vocab self))
      (docs_tokens_encoded (self_output_vocab self)).

(** Construct a loader and exhaust one iteration of it. What the caller
    observes is the shuffled ordering as it stands after construction,
    the batches in the order they are yielded and the exception that
    ended the iteration, if any. *)
Definition run (h : heap) (input_vocab output_vocab : Vocabulary)
    (batch_size : Z)
    (input_docs_tokens_encoded output_docs_tokens_encoded : option (list ref))
    (random_seed : Z)
  : result (list (list Z * list Z) * list (Tensor * Tensor) * option PyErr) :=
  '(h, _, self) ← __init__ h input_vocab output_vocab batch_size
      input_docs_tokens_encoded output_docs_tokens_encoded random_seed;
  let '(_, ts, e) := __iter__ self h in
  Ok (pair_values h (shuffled_pairs self), ts, e).
End Run.

(** ** Batches as values *)

(** The tensor of one side of a batch, from the documents as they are
    when the batch is collected. *)
Definition padded_batch (pad : Z) (docs : list (list Z)) : Tensor :=
  let max_len := max_list_with length docs in
  torch_tensor
    (np_transpose (Arr2 (length docs) max_len (map (pad_to pad max_len) docs))).

Definition batch_value (pad : Z) (doc_pairs : list (list Z * list Z))
  : Tensor * Tensor :=
  (padded_batch pad (map fst doc_pairs), padded_batch pad (map snd doc_pairs)).

(** The consecutive runs of [batch_size] elements of a list; what is
    left over at the end belongs to no run. *)
Definition full_batches {A : Type} (batch_size : nat) (l : list A)
  : list (list A) :=
  map (fun k => take batch_size (drop (k * batch_size) l))
      (seq 0 (length l / batch_size)).

(** The loop of [__iter__] over the pairs themselves instead of their
    indices; [end_] is how the loop ends once the pairs are used up. *)
Fixpoint walk (pad batch_size : Z) (end_ : option PyErr)
    (ps : list (ref * ref)) (h : heap) (batch : Z)
    (collected : list (ref * ref)) : trace :=
  match ps with
  | [] => (h, [], end_)
  | p :: rest =>
      let batch := (batch + 1)%Z in
      let collected := collected ++ [p] in
      if (batch =? batch_size)%Z then
        match _build_tensor pad h collected with
        | (h, Ok t) =>
            let '(h, ts, e) := walk pad batch_size end_ rest h 0%Z [] in
            (h, t :: ts, e)
        | (h, Raise e) => (h, [], Some e)
        end
      else walk pad batch_size end_ rest h batch collected
  end.

(** The same loop on documents that nobody else holds. *)
Fixpoint walk_values (pad batch_size : Z) (vs : list (list Z * list Z))
    (batch : Z) (collected : list (list Z * list Z))
  : list (Tensor * Tensor) :=
  match vs with
  | [] => []
  | v :: rest =>
      let batch := (batch + 1)%Z in
      let collected := collected ++ [v] in
      if (batch =? batch_size)%Z
      then batch_value pad collected :: walk_values pad batch_size rest 0%Z []
      else walk_values pad batch_size rest batch collected
  end.

(** ** Well-formed callers *)

(** Every reference names an object of the heap. *)
Definition valid_refs (h : heap) (rs : list ref) : Prop :=
  Forall (fun r => r < length h) rs.

(** The references of a list of pairs, and the absence of sharing
    among them. *)
Definition refs (ps : list (ref * ref)) : list ref := map fst ps ++ map snd ps.

Definition alias_free (ps : list (ref * ref)) : Prop := NoDup (refs ps).

(** The inputs and the outputs of a batch share no object. *)
Definition sides_apart (doc_pairs : list (ref * ref)) : Prop :=
  forall a b, a ∈ map fst doc_pairs -> b ∈ map snd doc_pairs -> a <> b.

(** The documents the loader is going to walk: the explicit lists when
    both are given, the vocabularies' own otherwise. *)
Definition corpus_refs (input_vocab output_vocab : Vocabulary)
    (input_docs_tokens_encoded output_docs_tokens_encoded : option (list ref))
  : list ref * list ref :=
  match input_docs_tokens_encoded, output_docs_tokens_encoded with
  | Some i, Some o => (i, o)
  | _, _ => (docs_tokens_encoded input_vocab, docs_tokens_encoded output_vocab)
  end.

(** No token list is shared: explicit lists are walked as they are, so
    they must not share an object at all; the vocabularies are copied
    one after the other, so each must be free of sharing by itself. *)
Definition corpus_ok (h : heap) (input_vocab output_vocab : Vocabulary)
    (input_docs_tokens_encoded output_docs_tokens_encoded : option (list ref))
  : Prop :=
  match input_docs_tokens_encoded, output_docs_tokens_encoded with
  | Some i, Some o => valid_refs h (i ++ o) /\ NoDup (i ++ o)
  | _, _ =>
      valid_refs h
        (docs_tokens_encoded input_vocab ++ docs_tokens_encoded output_vocab) /\
      NoDup (docs_tokens_encoded input_vocab) /\
      NoDup (docs_tokens_encoded output_vocab)
  end.

(** The paired documents of the corpus, before the shuffle. *)
Definition corpus_values (h : heap) (input_vocab output_vocab : Vocabulary)
    (input_docs_tokens_encoded output_docs_tokens_encoded : option (list ref))
  : list (list Z * list Z) :=
  let '(i, o) := corpus_refs input_vocab output_vocab
      input_docs_tokens_encoded output_docs_tokens_encoded in
  pair_values h (zip i o).

(** The loader a construction returns once the pairs are shuffled. *)
Definition shuffled_loader (input_vocab output_vocab : Vocabulary)
    (batch_size : Z)
    (input_docs_tokens_encoded output_docs_tokens_encoded : option (list ref))
    (random_seed : Z) (joined : list (ref * ref)) : SmartDataLoader :=
  {| self_input_vocab := set_docs (map fst joined) input_vocab;
     self_output_vocab := set_docs (map snd joined) output_vocab;
     self_batch_size := batch_size;
     self_input_docs_tokens_encoded := input_docs_tokens_encoded;
     self_output_docs_tokens_encoded := output_docs_tokens_encoded;
     self_random_seed := random_seed;
     self_n_sentences := length (docs_tokens_encoded input_vocab);
     self_PAD_TOKEN := PAD_TOKEN input_vocab |}.

Section RunValues.
Context `{NumpyRandom}.

(** What [run] comes to on a well-formed corpus, as a function of the
    documents alone: [n_sentences] indices are walked over the shuffled
    pairs, and running past their end is an index error. *)
Definition run_values (pad batch_size : Z) (n_sentences : nat)
    (random_seed : Z) (corpus : list (list Z * list Z))
  : result (list (list Z * list Z) * list (Tensor * Tensor) * option PyErr) :=
  g ← np_random_seed random_seed;
  let shuffled := (np_random_shuffle g corpus).1 in
  match shuffled with
  | [] => Raise ValueError
  | _ =>
      Ok (shuffled,
          map (batch_value pad)
              (full_batches (Z.to_nat batch_size) (take n_sentences shuffled)),
          if decide (length shuffled < n_sentences)
          then Some IndexError else None)
  end.
End RunValues.

(** ** A small generator to run the loader on *)

(** A linear congruential generator standing in for the Mersenne
    Twister wherever a concrete run is evaluated. *)
Definition lcg_next (g : Z) : Z := ((g * 1103515245 + 12345) mod 2 ^ 31)%Z.

Definition lcg_interval (g : Z) (m : nat) : nat * Z :=
  (Z.to_nat (lcg_next g mod Z.of_nat (S m)), lcg_next g).

#[global, refine] Instance lcg : NumpyRandom := {|
  rng_state := Z;
  seed_state := fun seed => seed;
  random_interval := lcg_interval
|}.
Proof.
  intros g m; unfold lcg_interval; cbn [fst].
  pose proof (Z.mod_pos_bound (lcg_next g) (Z.of_nat (S m))); lia.
Defined.

(** Three sentences on each side, the scenario of the documentation. *)
Definition heap3 : list (list Z) :=
  [[1; 2]; [1; 2; 3]; [1]; [4; 5]; [4]; [4; 5; 6]]%Z.

Definition input_vocab3 : Vocabulary :=
  {| docs_tokens_encoded := [0; 1; 2]; PAD_TOKEN := 0 |}.

Definition output_vocab3 : Vocabulary :=
  {| docs_tokens_encoded := [3; 4; 5]; PAD_TOKEN := 9 |}.

(** What constructing a loader on them with seed [0] comes to under
    the generator above: the copies sit behind the originals, and the
    third pair has moved to the front. *)
Definition heap3_copied : list (list Z) := heap3 ++ heap3.

Definition lcg_state3 : Z := 1406932606.

Definition loader3 (batch_size : Z) : SmartDataLoader :=
  {| self_input_vocab :=
       {| docs_tokens_encoded := [7; 8; 6]; PAD_TOKEN := 0 |};
     self_output_vocab :=
       {| docs_tokens_encoded := [10; 11; 9]; PAD_TOKEN := 9 |};
     self_batch_size := batch_size;
     self_input_docs_tokens_encoded := None;
     self_output_docs_tokens_encoded := None;
     self_random_seed := 0;
     self_n_sentences := 3;
     self_PAD_TOKEN := 0 |}.

(** The same three sentences laid out the other way round. *)
Definition heap3_rev : list (list Z) :=
  [[4; 5; 6]; [4]; [4; 5]; [1]; [1; 2; 3]; [1; 2]]%Z.

Definition input_vocab3_rev : Vocabulary :=
  {| docs_tokens_encoded := [5; 4; 3]; PAD_TOKEN := 0 |}.

Definition output_vocab3_rev : Vocabulary :=
  {| docs_tokens_encoded := [2; 1; 0]; PAD_TOKEN := 7 |}.

(** Two sentences on the input side and one on the output side. *)
Definition heap21 : list (list Z) := [[1]; [2]; [3]]%Z.

Definition input_vocab21 : Vocabulary :=
  {| docs_tokens_encoded := [0; 1]; PAD_TOKEN := 0 |}.

Definition output_vocab21 : Vocabulary :=
  {| docs_tokens_encoded := [2]; PAD_TOKEN := 0 |}.

(** A batch of two pairs whose first input is one token short. *)
Definition heap_short : list (list Z) := [[1; 2]; [1; 2; 3]; [4]; [5]]%Z.

Definition doc_pairs_short : list (nat * nat) := [(0, 2); (1, 3)].

(** Two pairs, handed over both inside the vocabularies and, as the
    same objects, as the explicit lists. *)
Definition heap_own : list (list Z) := [[1; 2]; [3]; [4]; [5]]%Z.

Definition input_vocab_own : Vocabulary :=
  {| docs_tokens_encoded := [0; 1]; PAD_TOKEN := 0 |}.

Definition output_vocab_own : Vocabulary :=
  {| docs_tokens_encoded := [2; 3]; PAD_TOKEN := 0 |}.

(** Vocabularies of one sentence, explicit lists of two. *)
Definition heap_more : list (list Z) := [[1]; [2]; [3]; [4]; [5]; [6]]%Z.

Definition input_vocab_one : Vocabulary :=
  {| docs_tokens_encoded := [0]; PAD_TOKEN := 0 |}.

Definition output_vocab_one : Vocabulary :=
  {| docs_tokens_encoded := [1]; PAD_TOKEN := 0 |}.

(** Two documents, each used as the input and as the output of its pair. *)
Definition heap_both : list (list Z) := [[1]; [1; 2; 3]]%Z.

Definition doc_pairs_both : list (nat * nat) := [(0, 0); (1, 1)].

(** A vocabulary without any document. *)
Definition output_vocab_none : Vocabulary :=
  {| docs_tokens_encoded := []; PAD_TOKEN := 0 |}.

(** * Properties *)

(** ** Inserting before the last element *)

Section PyListFacts.
Context {A : Type}.
Implicit Types (l : list A) (pad x : A).

Lemma py_insert_m1 x l :
  py_insert (-1) x l = take (length l - 1) l ++ x :: drop (length l - 1) l.
Proof.
  unfold py_insert.
  replace (-1 <? 0)%Z with true by (symmetry; apply Z.ltb_lt; lia).
  destruct l as [|a l']; [reflexivity|].
  set (n := length (a :: l')).
  assert (Hn : 1 <= n) by (subst n; simpl; lia).
  replace (-1 + Z.of_nat n <? 0)%Z with false
    by (symmetry; apply Z.ltb_ge; lia).
  replace (Z.of_nat n <? -1 + Z.of_nat n)%Z with false
    by (symmetry; apply Z.ltb_ge; lia).
  replace (Z.to_nat (-1 + Z.of_nat n)) with (n - 1) by lia.
  reflexivity.
Qed.

Lemma length_py_insert (w : Z) x l : length (py_insert w x l) = S (length l).
Proof.
  unfold py_insert.
  set (k := Z.to_nat _).
  rewrite length_app; simpl.
  rewrite length_take, length_drop. lia.
Qed.

Lemma pads_before_last_0 pad l : pads_before_last pad 0 l = l.
Proof. unfold pads_before_last; simpl. apply take_drop. Qed.

Lemma length_pads_before_last pad k l :
  length (pads_before_last pad k l) = length l + k.
Proof.
  unfold pads_before_last.
  rewrite !length_app, length_take, length_replicate, length_drop. lia.
Qed.

Lemma pads_before_last_snoc pad k l x :
  pads_before_last pad k (l ++ [x]) = l ++ replicate k pad ++ [x].
Proof.
  unfold pads_before_last.
  rewrite length_app; simpl length.
  replace (length l + 1 - 1) with (length l) by lia.
  rewrite take_app_length, drop_app_length. reflexivity.
Qed.

Lemma py_insert_m1_snoc pad l x :
  py_insert (-1) pad (l ++ [x]) = (l ++ [pad]) ++ [x].
Proof.
  rewrite py_insert_m1, length_app; simpl length.
  replace (length l + 1 - 1) with (length l) by lia.
  rewrite take_app_length, drop_app_length, <- app_assoc. reflexivity.
Qed.

Lemma insert_loop_spec pad k l : insert_loop pad k l = pads_before_last pad k l.
Proof.
  unfold insert_loop.
  revert l; induction k as [|k IH]; intros l.
  - simpl. symmetry. apply pads_before_last_0.
  - rewrite Nat.iter_succ_r, IH.
    destruct l as [|x l _] using rev_ind.
    + unfold pads_before_last; simpl.
      rewrite app_nil_r. symmetry. apply replicate_cons_app.
    + rewrite py_insert_m1_snoc, !pads_before_last_snoc, <- app_assoc.
      reflexivity.
Qed.

Lemma pad_to_spec pad m l :
  pad_to pad m l = pads_before_last pad (m - length l) l.
Proof.
  unfold pad_to. destruct (Nat.ltb_spec (length l) m) as [Hlt|Hge].
  - apply insert_loop_spec.
  - replace (m - length l) with 0 by lia. symmetry. apply pads_before_last_0.
Qed.

Lemma length_pad_to pad m l : length (pad_to pad m l) = Nat.max m (length l).
Proof. rewrite pad_to_spec, length_pads_before_last. lia. Qed.

Lemma pad_to_id pad m l : m <= length l -> pad_to pad m l = l.
Proof.
  intros Hle. unfold pad_to.
  destruct (Nat.ltb_spec (length l) m); [lia | reflexivity].
Qed.

Lemma pad_to_idemp pad m l : pad_to pad m (pad_to pad m l) = pad_to pad m l.
Proof. apply pad_to_id. rewrite length_pad_to. lia. Qed.
End PyListFacts.

(** ** Arrays of padded documents *)

Lemma max_list_with_length_ge (docs : list (list Z)) :
  Forall (fun d => length d <= max_list_with length docs) docs.
Proof.
  induction docs as [|d docs IH]; constructor; simpl.
  - lia.
  - eapply Forall_impl; [exact IH|]. simpl. intros; lia.
Qed.

Lemma max_list_with_app {A : Type} (f : A -> nat) (l k : list A) :
  max_list_with f (l ++ k) = Nat.max (max_list_with f l) (max_list_with f k).
Proof. induction l as [|a l IH]; simpl; [reflexivity | rewrite IH; lia]. Qed.

Lemma forallb_length_eq (m : nat) (docs : list (list Z)) :
  Forall (fun d => length d = m) docs ->
  forallb (fun d' => length d' =? m) docs = true.
Proof.
  induction 1 as [|d docs Hd _ IH]; simpl; [reflexivity|].
  rewrite IH, andb_true_r. apply Nat.eqb_eq, Hd.
Qed.

Lemma np_array_uniform (m : nat) (docs : list (list Z)) :
  docs <> [] ->
  Forall (fun d => length d = m) docs ->
  np_array docs = Ok (Arr2 (length docs) m docs).
Proof.
  intros Hne Hall. destruct docs as [|d docs']; [congruence|].
  unfold np_array.
  assert (Hd : length d = m) by (inversion Hall; assumption).
  rewrite Hd, (forallb_length_eq m _ Hall). reflexivity.
Qed.

Lemma np_array_pad_to (pad : Z) (docs : list (list Z)) :
  docs <> [] ->
  let m := max_list_with length docs in
  np_array (map (pad_to pad m) docs)
  = Ok (Arr2 (length docs) m (map (pad_to pad m) docs)).
Proof.
  intros Hne m.
  rewrite (np_array_uniform m).
  - rewrite length_map. reflexivity.
  - destruct docs; [congruence | discriminate].
  - apply Forall_map. eapply Forall_impl; [apply max_list_with_length_ge|].
    simpl. intros d Hd. rewrite length_pad_to. fold m in Hd. lia.
Qed.

Lemma map_nth_seq_id (row : list Z) :
  map (fun i => nth i row 0%Z) (seq 0 (length row)) = row.
Proof.
  apply list_eq; intros i.
  rewrite list_lookup_fmap.
  destruct (decide (i < length row)) as [Hlt|Hge].
  - rewrite lookup_seq_lt by assumption. simpl.
    destruct (lookup_lt_is_Some_2 row i Hlt) as [x Hx].
    rewrite Hx. f_equal. apply nth_lookup_Some, Hx.
  - rewrite lookup_seq_ge by lia. simpl.
    symmetry. apply lookup_ge_None. lia.
Qed.

Lemma column_np_transpose (r c j : nat) (rows : list (list Z)) (row : list Z) :
  rows !! j = Some row ->
  length row = c ->
  column (np_transpose (Arr2 r c rows)) j = row.
Proof.
  intros Hj Hc. simpl. rewrite map_map.
  rewrite <- (map_nth_seq_id row) at 1. rewrite Hc.
  apply map_ext; intros i.
  apply nth_lookup_Some.
  change (map ?f rows) with (f <$> rows).
  rewrite list_lookup_fmap, Hj. reflexivity.
Qed.

Lemma shape_padded_batch (pad : Z) (docs : list (list Z)) :
  shape (padded_batch pad docs) = [max_list_with length docs; length docs].
Proof. reflexivity. Qed.

Lemma column_padded_batch (pad : Z) (docs : list (list Z)) (j : nat) (d : list Z) :
  docs !! j = Some d ->
  column (padded_batch pad docs) j
  = pads_before_last pad (max_list_with length docs - length d) d.
Proof.
  intros Hj. unfold padded_batch, torch_tensor.
  rewrite <- pad_to_spec.
  apply column_np_transpose.
  - change (map ?f docs) with (f <$> docs).
    rewrite list_lookup_fmap, Hj. reflexivity.
  - rewrite length_pad_to.
    pose proof (max_list_with_length_ge docs) as Hall.
    rewrite Forall_forall in Hall.
    assert (d ∈ docs) as Hin by (eapply list_elem_of_lookup_2; eassumption).
    specialize (Hall d Hin). simpl in Hall. lia.
Qed.

(** ** Padding in the heap *)

Lemma insert_pads_alter (r : ref) (pad : Z) (k : nat) (h : heap) :
  insert_pads r pad k h = alter (insert_loop pad k) r h.
Proof.
  unfold insert_pads, insert_loop.
  induction k as [|k IH]; simpl.
  - symmetry. apply list_alter_id. reflexivity.
  - rewrite IH, list_alter_alter_eq. reflexivity.
Qed.

Lemma deref_lookup (h : heap) (r : ref) (x : list Z) :
  h !! r = Some x -> deref h r = x.
Proof. unfold deref. intros ->. reflexivity. Qed.

Lemma valid_lookup (h : heap) (r : ref) :
  r < length h -> h !! r = Some (deref h r).
Proof.
  intros Hr. destruct (lookup_lt_is_Some_2 h r Hr) as [x Hx].
  rewrite (deref_lookup _ _ _ Hx). exact Hx.
Qed.

(** One side of one round: the guarded loop is [pad_to] on the object. *)
Lemma pad_side_alter (pad : Z) (m : nat) (r : ref) (h : heap) :
  (if doc_len h r <? m then insert_pads r pad (m - doc_len h r) h else h)
  = alter (pad_to pad m) r h.
Proof.
  unfold doc_len. destruct (Nat.ltb_spec (length (deref h r)) m) as [Hlt|Hge].
  - rewrite insert_pads_alter. apply list_alter_ext; [|reflexivity].
    intros x Hx. rewrite (deref_lookup _ _ _ Hx) in *.
    unfold pad_to. destruct (Nat.ltb_spec (length x) m); [reflexivity | lia].
  - rewrite <- (list_alter_id id h r) at 1 by reflexivity.
    apply list_alter_ext; [|reflexivity].
    intros x Hx. rewrite (deref_lookup _ _ _ Hx) in *.
    symmetry. apply pad_to_id. exact Hge.
Qed.

Lemma pad_doc_pair_alter (pad : Z) (im om : nat) (h : heap) (a b : ref) :
  a <> b ->
  pad_doc_pair pad im om h (a, b)
  = alter (pad_to pad om) b (alter (pad_to pad im) a h).
Proof.
  intros Hab. unfold pad_doc_pair. cbn [fst snd].
  rewrite pad_side_alter.
  replace (doc_len h b) with (doc_len (alter (pad_to pad im) a h) b).
  - apply pad_side_alter.
  - unfold doc_len, deref. rewrite list_lookup_alter_ne by exact Hab.
    reflexivity.
Qed.

Lemma max_lens_acc (h : heap) (doc_pairs : list (ref * ref)) (x y : nat) :
  fold_left
    (fun '(input_max_len, output_max_len) doc_pair =>
       (Nat.max input_max_len (doc_len h doc_pair.1),
        Nat.max output_max_len (doc_len h doc_pair.2)))
    doc_pairs (x, y)
  = (Nat.max x (max_list_with length (map (deref h) (map fst doc_pairs))),
     Nat.max y (max_list_with length (map (deref h) (map snd doc_pairs)))).
Proof.
  revert x y; induction doc_pairs as [|[a b] dp IH]; intros x y; simpl.
  - f_equal; lia.
  - rewrite IH. unfold doc_len. f_equal; lia.
Qed.

Lemma max_lens_spec (h : heap) (doc_pairs : list (ref * ref)) :
  max_lens h doc_pairs
  = (max_list_with length (map (deref h) (map fst doc_pairs)),
     max_list_with length (map (deref h) (map snd doc_pairs))).
Proof. unfold max_lens. rewrite max_lens_acc. reflexivity. Qed.

Lemma sides_apart_cons (p : ref * ref) (dp : list (ref * ref)) :
  sides_apart (p :: dp) -> p.1 <> p.2 /\ sides_apart dp.
Proof.
  intros Hs. split.
  - apply Hs; simpl; left.
  - intros a b Ha Hb. apply Hs; simpl; right; assumption.
Qed.

Lemma length_fold_pad (pad : Z) (im om : nat) (dp : list (ref * ref)) (h : heap) :
  length (fold_left (pad_doc_pair pad im om) dp h) = length h.
Proof.
  revert h; induction dp as [|[a b] dp IH]; intros h; simpl; [reflexivity|].
  rewrite IH. unfold pad_doc_pair. cbn [fst snd].
  rewrite pad_side_alter.
  destruct (_ <? om); [rewrite insert_pads_alter|]; rewrite !length_alter;
    reflexivity.
Qed.

Lemma fold_pad_lookup (pad : Z) (im om : nat) (dp : list (ref * ref)) :
  forall (h : heap) (r : ref),
  sides_apart dp ->
  fold_left (pad_doc_pair pad im om) dp h !! r
  = (if decide (r ∈ map fst dp) then pad_to pad im
     else if decide (r ∈ map snd dp) then pad_to pad om
     else id) <$> h !! r.
Proof.
  induction dp as [|[a b] dp IH]; intros h r Hs.
  - simpl. destruct (h !! r); reflexivity.
  - apply sides_apart_cons in Hs as Hs'. destruct Hs' as [Hab Hs'].
    cbn [fst snd] in Hab.
    cbn [fold_left]. rewrite IH by exact Hs'.
    rewrite pad_doc_pair_alter by exact Hab.
    rewrite !list_lookup_alter.
    assert (Ha : forall x, x ∈ map snd dp -> a <> x).
    { intros x Hx. apply Hs; simpl; [left | right; exact Hx]. }
    assert (Hb : forall x, x ∈ map fst dp -> x <> b).
    { intros x Hx. apply Hs; simpl; [right; exact Hx | left]. }
    cbn [map fst snd].
    repeat case_decide; subst;
      repeat match goal with
      | Hn : ?x <> ?x |- _ => exfalso; apply Hn; reflexivity
      | Hn : ?x ∉ ?x :: _ |- _ => exfalso; apply Hn; left
      | Hn : ?x ∉ _ :: ?l, Hi : ?x ∈ ?l |- _ => exfalso; apply Hn; right; exact Hi
      | Hi : ?x ∈ ?y :: ?l, Hn : ?x ∉ ?l, Hne : ?y <> ?x |- _ =>
          exfalso; apply elem_of_cons in Hi as [->|Hi]; [apply Hne; reflexivity | exact (Hn Hi)]
      | Hi : ?x ∈ map snd dp |- _ => exfalso; exact (Ha _ Hi eq_refl)
      | Hi : ?x ∈ map fst dp |- _ => exfalso; exact (Hb _ Hi eq_refl)
      end;
      try (destruct (h !! _); simpl; rewrite ?pad_to_idemp; reflexivity).
Qed.

Lemma map_fst_pair_values (h : heap) (ps : list (ref * ref)) :
  map fst (pair_values h ps) = map (deref h) (map fst ps).
Proof. unfold pair_values. rewrite !map_map. reflexivity. Qed.

Lemma map_snd_pair_values (h : heap) (ps : list (ref * ref)) :
  map snd (pair_values h ps) = map (deref h) (map snd ps).
Proof. unfold pair_values. rewrite !map_map. reflexivity. Qed.

Lemma map_deref_fold_pad (pad : Z) (im om : nat) (dp : list (ref * ref))
    (h : heap) (f : list Z -> list Z) (rs : list ref) :
  valid_refs h rs ->
  (forall r x, r ∈ rs -> h !! r = Some x ->
     fold_left (pad_doc_pair pad im om) dp h !! r = Some (f x)) ->
  map (deref (fold_left (pad_doc_pair pad im om) dp h)) rs
  = map f (map (deref h) rs).
Proof.
  intros Hv Hf. rewrite map_map. apply map_ext_in. intros r Hr.
  apply list_elem_of_In in Hr.
  unfold valid_refs in Hv. rewrite Forall_forall in Hv.
  pose proof (valid_lookup h r (Hv r Hr)) as Hx.
  apply deref_lookup. apply Hf; assumption.
Qed.

(** A batch whose two sides share no object is materialised as the
    value of its documents, and nothing else in the heap changes. *)
Lemma build_tensor_spec (pad : Z) (h : heap) (dp : list (ref * ref)) :
  dp <> [] ->
  valid_refs h (map fst dp) ->
  valid_refs h (map snd dp) ->
  sides_apart dp ->
  exists h',
    _build_tensor pad h dp = (h', Ok (batch_value pad (pair_values h dp)))
    /\ length h' = length h
    /\ (forall r, r ∉ map fst dp -> r ∉ map snd dp -> h' !! r = h !! r).
Proof.
  intros Hne Hvi Hvo Hs.
  unfold _build_tensor. rewrite max_lens_spec.
  set (im := max_list_with length (map (deref h) (map fst dp))).
  set (om := max_list_with length (map (deref h) (map snd dp))).
  set (h' := fold_left (pad_doc_pair pad im om) dp h).
  exists h'. split; [|split].
  - f_equal. subst h'.
    rewrite (map_deref_fold_pad pad im om dp h (pad_to pad im) (map fst dp));
      cycle 1.
    { exact Hvi. }
    { intros r x Hr Hx.
      rewrite fold_pad_lookup by exact Hs.
      rewrite decide_True by exact Hr. rewrite Hx. reflexivity. }
    rewrite (map_deref_fold_pad pad im om dp h (pad_to pad om) (map snd dp));
      cycle 1.
    { exact Hvo. }
    { intros r x Hr Hx.
      rewrite fold_pad_lookup by exact Hs.
      rewrite decide_False.
      - rewrite decide_True by exact Hr. rewrite Hx. reflexivity.
      - intros Hin. exact (Hs r r Hin Hr eq_refl). }
    subst im om.
    rewrite !np_array_pad_to.
    + unfold batch_value, padded_batch.
      rewrite map_fst_pair_values, map_snd_pair_values. reflexivity.
    + destruct dp; [congruence | discriminate].
    + destruct dp; [congruence | discriminate].
  - apply length_fold_pad.
  - intros r Hi Ho. subst h'. rewrite fold_pad_lookup by exact Hs.
    rewrite !decide_False by assumption.
    destruct (h !! r); reflexivity.
Qed.

(** ** The generator loop *)

(** Walking the indices is walking the pairs; an index past the end of
    the shuffled documents ends the walk with an index error. *)
Lemma iter_loop_walk (self : SmartDataLoader) (n : nat) :
  forall (i : nat) (h : heap) (batch : Z) (collected : list (ref * ref)),
  i <= length (shuffled_pairs self) ->
  iter_loop self (seq i n) h batch collected
  = walk (self_PAD_TOKEN self) (self_batch_size self)
      (if decide (length (shuffled_pairs self) < i + n)
       then Some IndexError else None)
      (take n (drop i (shuffled_pairs self))) h batch collected.
Proof.
  induction n as [|n IH]; intros i h batch collected Hi.
  - simpl. rewrite decide_False by lia. reflexivity.
  - cbn [seq iter_loop].
    destruct (shuffled_pairs self !! i) as [[a b]|] eqn:Hp.
    + pose proof Hp as Hp'. unfold shuffled_pairs in Hp'.
      apply lookup_zip_Some in Hp' as [Ha Hb].
      rewrite Ha, Hb.
      rewrite (drop_S _ _ _ Hp). cbn [take walk].
      replace (i + S n) with (S i + n) by lia.
      assert (Hi' : S i <= length (shuffled_pairs self)).
      { apply lookup_lt_Some in Hp. lia. }
      destruct (batch + 1 =? self_batch_size self)%Z.
      * destruct (_build_tensor _ h _) as [h1 [t|e]]; [|reflexivity].
        rewrite IH by exact Hi'. reflexivity.
      * apply IH. exact Hi'.
    + pose proof Hp as Hlen. apply lookup_ge_None in Hlen.
      rewrite drop_ge by exact Hlen. rewrite take_nil. cbn [walk].
      rewrite decide_True by lia.
      unfold shuffled_pairs in Hp. apply lookup_zip_None in Hp.
      destruct Hp as [-> | ->]; [reflexivity|].
      destruct (_ !! i); reflexivity.
Qed.

Lemma iter_walk (self : SmartDataLoader) (h : heap) :
  __iter__ self h
  = walk (self_PAD_TOKEN self) (self_batch_size self)
      (if decide (length (shuffled_pairs self) < self_n_sentences self)
       then Some IndexError else None)
      (take (self_n_sentences self) (shuffled_pairs self)) h 0%Z [].
Proof. unfold __iter__. rewrite iter_loop_walk by lia. reflexivity. Qed.

Lemma refs_app (c ps : list (ref * ref)) :
  refs (c ++ ps) ≡ₚ refs c ++ refs ps.
Proof. unfold refs. rewrite !map_app. solve_Permutation. Qed.

Lemma alias_free_app (c ps : list (ref * ref)) :
  alias_free (c ++ ps) ->
  alias_free c /\ alias_free ps /\ (forall r, r ∈ refs c -> r ∉ refs ps).
Proof.
  unfold alias_free. rewrite refs_app, NoDup_app. tauto.
Qed.

Lemma alias_free_sides_apart (c : list (ref * ref)) :
  alias_free c -> sides_apart c.
Proof.
  unfold alias_free, refs. rewrite NoDup_app. intros (_ & Hd & _) a b Ha Hb ->.
  exact (Hd b Ha Hb).
Qed.

Lemma valid_refs_app (h : heap) (c ps : list (ref * ref)) :
  valid_refs h (refs (c ++ ps)) <->
  valid_refs h (refs c) /\ valid_refs h (refs ps).
Proof.
  unfold valid_refs. rewrite refs_app, Forall_app. reflexivity.
Qed.

Lemma valid_refs_length (h h' : heap) (rs : list ref) :
  length h' = length h -> valid_refs h rs -> valid_refs h' rs.
Proof. unfold valid_refs. intros ->. trivial. Qed.

Lemma pair_values_frame (h h' : heap) (ps : list (ref * ref)) :
  (forall r, r ∈ refs ps -> h' !! r = h !! r) ->
  pair_values h' ps = pair_values h ps.
Proof.
  intros Hf. unfold pair_values. apply map_ext_in. intros [a b] Hin.
  apply list_elem_of_In in Hin. cbn [fst snd]. unfold deref.
  rewrite !Hf; [reflexivity| |]; unfold refs; rewrite elem_of_app.
  - right. apply list_elem_of_fmap. exists (a, b). split; [reflexivity|exact Hin].
  - left. apply list_elem_of_fmap. exists (a, b). split; [reflexivity|exact Hin].
Qed.

(** On documents that share nothing, the loop yields the batches of
    their values and never raises by itself. *)
Lemma walk_spec (pad batch_size : Z) (end_ : option PyErr)
    (ps : list (ref * ref)) :
  forall (h : heap) (batch : Z) (collected : list (ref * ref)),
  alias_free (collected ++ ps) ->
  valid_refs h (refs (collected ++ ps)) ->
  exists h',
    walk pad batch_size end_ ps h batch collected
    = (h',
       walk_values pad batch_size (pair_values h ps) batch
         (pair_values h collected),
       end_).
Proof.
  induction ps as [|p rest IH]; intros h batch collected Haf Hv.
  - exists h. reflexivity.
  - cbn [walk pair_values map walk_values].
    change (map (fun p0 => (deref h p0.1, deref h p0.2)) rest)
      with (pair_values h rest).
    replace (pair_values h collected ++ [(deref h p.1, deref h p.2)])
      with (pair_values h (collected ++ [p]))
      by (unfold pair_values; rewrite map_app; reflexivity).
    assert (Happ : collected ++ p :: rest = (collected ++ [p]) ++ rest)
      by (rewrite <- app_assoc; reflexivity).
    rewrite Happ in Haf, Hv.
    destruct (batch + 1 =? batch_size)%Z.
    + destruct (alias_free_app _ _ Haf) as (Hc & Hrest & Hdisj).
      apply valid_refs_app in Hv as [Hvc Hvr].
      destruct (build_tensor_spec pad h (collected ++ [p]))
        as (h1 & Hbt & Hlen & Hframe).
      * destruct collected; discriminate.
      * unfold valid_refs, refs in Hvc. apply Forall_app in Hvc. tauto.
      * unfold valid_refs, refs in Hvc. apply Forall_app in Hvc. tauto.
      * apply alias_free_sides_apart, Hc.
      * rewrite Hbt.
        destruct (IH h1 0%Z []) as (h2 & Hw).
        { exact Hrest. }
        { eapply valid_refs_length; [exact Hlen | exact Hvr]. }
        rewrite Hw. exists h2.
        rewrite (pair_values_frame h h1 rest); [reflexivity|].
        intros r Hr. apply Hframe.
        -- intros Hin. apply (Hdisj r); [|exact Hr].
           unfold refs. apply elem_of_app. left. exact Hin.
        -- intros Hin. apply (Hdisj r); [|exact Hr].
           unfold refs. apply elem_of_app. right. exact Hin.
    + apply IH; assumption.
Qed.

(** ** Batches of a list of documents *)

Section FullBatches.
Context {A : Type}.
Implicit Types (l : list A).

Lemma full_batches_short (B : nat) l : length l < B -> full_batches B l = [].
Proof.
  intros Hlt. unfold full_batches. rewrite Nat.div_small by exact Hlt.
  reflexivity.
Qed.

Lemma full_batches_step (B : nat) l :
  0 < B -> B <= length l ->
  full_batches B l = take B l :: full_batches B (drop B l).
Proof.
  intros HB Hle. unfold full_batches.
  assert (Hdiv : length l / B = S (length (drop B l) / B)).
  { rewrite length_drop.
    replace (length l) with ((length l - B) + 1 * B) at 1 by lia.
    rewrite Nat.div_add by lia. lia. }
  rewrite Hdiv. cbn [seq map]. f_equal.
  rewrite <- seq_shift, map_map. apply map_ext. intros k.
  rewrite drop_drop. reflexivity.
Qed.

Lemma length_full_batches (B : nat) l :
  length (full_batches B l) = length l / B.
Proof. unfold full_batches. rewrite length_map, length_seq. reflexivity. Qed.

Lemma full_batches_lookup (B k : nat) l (chunk : list A) :
  full_batches B l !! k = Some chunk ->
  chunk = take B (drop (k * B) l) /\ length chunk = B /\ k < length l / B.
Proof.
  unfold full_batches. intros Hk.
  change (map ?f ?x) with (f <$> x) in Hk.
  rewrite list_lookup_fmap in Hk.
  destruct (seq 0 (length l / B) !! k) as [k'|] eqn:Hs; [|discriminate].
  apply lookup_seq in Hs as [-> Hlt]. simpl in Hk.
  injection Hk as <-. split; [reflexivity|]. split; [|exact Hlt].
  rewrite length_take, length_drop.
  assert (B * (length l / B) <= length l) by (apply Nat.Div0.mul_div_le).
  nia.
Qed.

(** The batches are cut from the front; what is left over is shorter
    than a batch. *)
Lemma concat_full_batches (B : nat) l :
  concat (full_batches B l) = take (B * (length l / B)) l.
Proof.
  destruct (decide (B = 0)) as [->|HB].
  { reflexivity. }
  remember (length l) as n eqn:Hn. revert l Hn.
  induction n as [n IH] using lt_wf_ind. intros l Hn.
  destruct (decide (n < B)) as [Hlt|Hge].
  - rewrite full_batches_short by lia.
    rewrite Nat.div_small by exact Hlt.
    rewrite Nat.mul_0_r. reflexivity.
  - rewrite full_batches_step by lia. cbn [concat].
    rewrite (IH (length (drop B l))); [|rewrite length_drop; lia|reflexivity].
    rewrite length_drop.
    assert (Hd : n / B = (length l - B) / B + 1).
    { subst n. replace (length l) with ((length l - B) + 1 * B) at 1 by lia.
      rewrite Nat.div_add by lia. reflexivity. }
    rewrite Hd.
    replace (B * ((length l - B) / B + 1))
      with (B + B * ((length l - B) / B)) by lia.
    rewrite <- take_take_drop. reflexivity.
Qed.
End FullBatches.

Section WalkValues.
Variables (pad batch_size : Z).
Implicit Types (vs c : list (list Z * list Z)).

(** A batch size below one is never reached by the counter. *)
Lemma walk_values_nonpos vs (batch : Z) c :
  (batch_size <= 0)%Z -> (0 <= batch)%Z ->
  walk_values pad batch_size vs batch c = [].
Proof.
  intros Hbs. revert batch c.
  induction vs as [|v rest IH]; intros batch c Hb; [reflexivity|].
  cbn [walk_values].
  destruct (Z.eqb_spec (batch + 1) batch_size) as [Heq|Hne]; [lia|].
  apply IH. lia.
Qed.

Lemma walk_values_fill vs : forall c,
  length c < Z.to_nat batch_size ->
  walk_values pad batch_size vs (Z.of_nat (length c)) c
  = if decide (length c + length vs < Z.to_nat batch_size) then []
    else batch_value pad (c ++ take (Z.to_nat batch_size - length c) vs)
         :: walk_values pad batch_size
              (drop (Z.to_nat batch_size - length c) vs) 0%Z [].
Proof.
  induction vs as [|v rest IH]; intros c Hc.
  - simpl. rewrite decide_True by lia. reflexivity.
  - cbn [walk_values].
    destruct (Z.eqb_spec (Z.of_nat (length c) + 1) batch_size) as [Heq|Hne].
    + rewrite decide_False by (simpl; lia).
      replace (Z.to_nat batch_size - length c) with 1 by lia.
      reflexivity.
    + replace (Z.of_nat (length c) + 1)%Z
        with (Z.of_nat (length (c ++ [v])))
        by (rewrite length_app; simpl; lia).
      rewrite IH by (rewrite length_app; simpl; lia).
      rewrite length_app. cbn [length].
      replace (Z.to_nat batch_size - length c)
        with (S (Z.to_nat batch_size - (length c + 1))) by lia.
      cbn [take drop]. rewrite <- app_assoc. cbn [app].
      destruct (decide (length c + 1 + length rest < Z.to_nat batch_size));
        [rewrite decide_True by lia | rewrite decide_False by lia];
        reflexivity.
Qed.

(** Every [batch_size] documents make a batch, and the loop has nothing
    else to yield. *)
Lemma walk_values_full_batches vs :
  walk_values pad batch_size vs 0%Z []
  = map (batch_value pad) (full_batches (Z.to_nat batch_size) vs).
Proof.
  destruct (decide (batch_size <= 0)%Z) as [Hle|Hgt].
  { rewrite walk_values_nonpos by lia.
    replace (Z.to_nat batch_size) with 0 by lia. reflexivity. }
  remember (length vs) as n eqn:Hn. revert vs Hn.
  induction n as [n IH] using lt_wf_ind. intros vs Hn.
  change 0%Z with (Z.of_nat (length (@nil (list Z * list Z)))).
  rewrite walk_values_fill by (simpl; lia).
  cbn [length app]. rewrite Nat.sub_0_r, Nat.add_0_l.
  destruct (decide (length vs < Z.to_nat batch_size)) as [Hlt|Hge].
  - rewrite full_batches_short by exact Hlt. reflexivity.
  - rewrite full_batches_step by lia. cbn [map]. f_equal.
    apply (IH (length (drop (Z.to_nat batch_size) vs)));
      [rewrite length_drop; lia | reflexivity].
Qed.
End WalkValues.

(** One iteration over documents that share nothing. *)
Lemma iter_spec (self : SmartDataLoader) (h : heap) :
  alias_free (shuffled_pairs self) ->
  valid_refs h (refs (shuffled_pairs self)) ->
  exists h',
    __iter__ self h
    = (h',
       map (batch_value (self_PAD_TOKEN self))
         (full_batches (Z.to_nat (self_batch_size self))
            (take (self_n_sentences self)
               (pair_values h (shuffled_pairs self)))),
       if decide (length (shuffled_pairs self) < self_n_sentences self)
       then Some IndexError else None).
Proof.
  intros Haf Hv. rewrite iter_walk.
  set (n := self_n_sentences self). set (ps := shuffled_pairs self) in *.
  rewrite <- (take_drop n ps) in Haf, Hv.
  apply alias_free_app in Haf as (Haf & _ & _).
  apply valid_refs_app in Hv as [Hv _].
  destruct (walk_spec (self_PAD_TOKEN self) (self_batch_size self)
              (if decide (length ps < n) then Some IndexError else None)
              (take n ps) h 0%Z []) as [h' Hw]; [assumption..|].
  exists h'. rewrite Hw. cbn [pair_values map].
  rewrite walk_values_full_batches.
  unfold pair_values. change (map ?f ?l) with (f <$> l).
  rewrite fmap_take. reflexivity.
Qed.

(** ** The shuffle *)

Section ShuffleFacts.
Context `{NumpyRandom}.

Lemma swap_Permutation {A : Type} (i j : nat) (x : list A) : swap i j x ≡ₚ x.
Proof.
  unfold swap.
  destruct (x !! i) as [a|] eqn:Hi; [|reflexivity].
  destruct (x !! j) as [b|] eqn:Hj; [|reflexivity].
  apply Permutation_insert_swap; assumption.
Qed.

Lemma swap_map {A B : Type} (f : A -> B) (i j : nat) (x : list A) :
  swap i j (map f x) = map f (swap i j x).
Proof.
  unfold swap. change (map f) with (fmap (M:=list) f).
  rewrite !list_lookup_fmap.
  destruct (x !! i) as [a|]; [|reflexivity].
  destruct (x !! j) as [b|]; [|reflexivity].
  simpl. rewrite !list_fmap_insert. reflexivity.
Qed.

Lemma shuffle_loop_Permutation {A : Type} (idxs : list nat) :
  forall (g : rng_state) (x : list A), (shuffle_loop idxs g x).1 ≡ₚ x.
Proof.
  induction idxs as [|i rest IH]; intros g x; [reflexivity|].
  cbn [shuffle_loop]. destruct (random_interval g i) as [j g'].
  rewrite IH. apply swap_Permutation.
Qed.

Lemma shuffle_loop_map {A B : Type} (f : A -> B) (idxs : list nat) :
  forall (g : rng_state) (x : list A),
  shuffle_loop idxs g (map f x)
  = (map f (shuffle_loop idxs g x).1, (shuffle_loop idxs g x).2).
Proof.
  induction idxs as [|i rest IH]; intros g x; [reflexivity|].
  cbn [shuffle_loop]. destruct (random_interval g i) as [j g'].
  rewrite swap_map. apply IH.
Qed.

(** The shuffle rearranges; it neither drops nor repeats an element. *)
Lemma np_random_shuffle_Permutation {A : Type} (g : rng_state) (x : list A) :
  (np_random_shuffle g x).1 ≡ₚ x.
Proof. apply shuffle_loop_Permutation. Qed.

Lemma length_np_random_shuffle {A : Type} (g : rng_state) (x : list A) :
  length (np_random_shuffle g x).1 = length x.
Proof. apply Permutation_length, np_random_shuffle_Permutation. Qed.

(** The draws depend on the length of the list alone, so the shuffle
    commutes with reading the documents behind the references. *)
Lemma np_random_shuffle_map {A B : Type} (f : A -> B) (g : rng_state)
    (x : list A) :
  (np_random_shuffle g (map f x)).1 = map f (np_random_shuffle g x).1.
Proof.
  unfold np_random_shuffle. rewrite length_map, shuffle_loop_map. reflexivity.
Qed.

Lemma unpack2_zip_star {A : Type} (joined : list (A * A)) :
  unpack2 (zip_star joined)
  = match joined with
    | [] => Raise ValueError
    | _ => Ok (map fst joined, map snd joined)
    end.
Proof. destruct joined; reflexivity. Qed.
End ShuffleFacts.

(** ** Deep copies *)

Lemma deref_app_valid (h ext : heap) (r : ref) :
  r < length h -> deref (h ++ ext) r = deref h r.
Proof. intros Hr. unfold deref. rewrite lookup_app_l by exact Hr. reflexivity. Qed.

Lemma map_deref_app_valid (h ext : heap) (rs : list ref) :
  valid_refs h rs -> map (deref (h ++ ext)) rs = map (deref h) rs.
Proof.
  intros Hv. apply map_ext_in. intros r Hr. apply list_elem_of_In in Hr.
  unfold valid_refs in Hv. rewrite Forall_forall in Hv.
  apply deref_app_valid, Hv, Hr.
Qed.

Lemma valid_refs_app_heap (h ext : heap) (rs : list ref) :
  valid_refs h rs -> valid_refs (h ++ ext) rs.
Proof.
  unfold valid_refs. intros Hv. eapply Forall_impl; [exact Hv|].
  simpl. intros r Hr. rewrite length_app. lia.
Qed.

(** Copying only allocates: the objects that exist stay as they are. *)
Lemma deepcopy_docs_extends (docs : list ref) :
  forall (memo : gmap ref ref) (h : heap),
  exists ext, (deepcopy_docs memo h docs).1 = h ++ ext.
Proof.
  induction docs as [|r rest IH]; intros memo h.
  - exists []. simpl. rewrite app_nil_r. reflexivity.
  - cbn [deepcopy_docs]. destruct (memo !! r) as [r'|].
    + destruct (IH memo h) as [ext Hext].
      destruct (deepcopy_docs memo h rest) as [h' out]. exists ext. exact Hext.
    + destruct (IH (<[r:=length h]> memo) (h ++ [deref h r])) as [ext Hext].
      destruct (deepcopy_docs _ (h ++ [deref h r]) rest) as [h' out].
      exists (deref h r :: ext). cbn [fst] in *. rewrite Hext, <- app_assoc.
      reflexivity.
Qed.

(** Documents that share no object are copied one by one to the end of
    the heap. *)
Lemma deepcopy_docs_NoDup (docs : list ref) :
  forall (memo : gmap ref ref) (h : heap),
  NoDup docs ->
  (forall r, r ∈ docs -> memo !! r = None) ->
  valid_refs h docs ->
  deepcopy_docs memo h docs
  = (h ++ map (deref h) docs, seq (length h) (length docs)).
Proof.
  induction docs as [|r rest IH]; intros memo h Hnd Hmemo Hv.
  - simpl. rewrite app_nil_r. reflexivity.
  - cbn [deepcopy_docs]. rewrite (Hmemo r) by left.
    apply NoDup_cons in Hnd as [Hr Hnd].
    unfold valid_refs in Hv. apply Forall_cons in Hv as [Hvr Hv].
    rewrite IH.
    + rewrite map_deref_app_valid by exact Hv.
      rewrite <- app_assoc, length_app. cbn [length map seq app].
      rewrite Nat.add_1_r. reflexivity.
    + exact Hnd.
    + intros r' Hr'. rewrite lookup_insert_ne.
      * apply Hmemo. right. exact Hr'.
      * intros ->. exact (Hr Hr').
    + apply valid_refs_app_heap. exact Hv.
Qed.

Lemma zip_fst_take {A B : Type} (a : list A) (b : list B) :
  (zip a b).*1 = take (length b) a.
Proof.
  revert b; induction a as [|x a IH]; intros [|y b]; simpl;
    try reflexivity.
  f_equal. apply IH.
Qed.

Lemma zip_snd_take {A B : Type} (a : list A) (b : list B) :
  (zip a b).*2 = take (length a) b.
Proof.
  revert b; induction a as [|x a IH]; intros [|y b]; simpl;
    try reflexivity.
  f_equal. apply IH.
Qed.

Lemma refs_zip_sublist (a b : list ref) :
  refs (zip a b) `sublist_of` a ++ b.
Proof.
  unfold refs. change (map fst ?l) with (l.*1). change (map snd ?l) with (l.*2).
  rewrite zip_fst_take, zip_snd_take.
  apply sublist_app; apply sublist_take.
Qed.

Lemma alias_free_zip (a b : list ref) : NoDup (a ++ b) -> alias_free (zip a b).
Proof.
  intros Hnd. unfold alias_free.
  eapply sublist_NoDup; [exact Hnd | apply refs_zip_sublist].
Qed.

Lemma valid_refs_zip (h : heap) (a b : list ref) :
  valid_refs h (a ++ b) -> valid_refs h (refs (zip a b)).
Proof.
  unfold valid_refs. rewrite !Forall_forall. intros Hv r Hr.
  apply Hv. eapply elem_of_sublist; [exact Hr | apply refs_zip_sublist].
Qed.

(** ** Construction *)

Lemma pair_values_zip (h : heap) (a b : list ref) :
  pair_values h (zip a b) = zip (map (deref h) a) (map (deref h) b).
Proof.
  unfold pair_values. revert b; induction a as [|x a IH]; intros [|y b];
    simpl; try reflexivity.
  f_equal. apply IH.
Qed.

Lemma map_deref_seq (h m rest : heap) :
  map (deref (h ++ m ++ rest)) (seq (length h) (length m)) = m.
Proof.
  apply list_eq. intros i.
  change (map ?f ?l) with (f <$> l). rewrite list_lookup_fmap.
  destruct (decide (i < length m)) as [Hlt|Hge].
  - rewrite lookup_seq_lt by exact Hlt. simpl. unfold deref.
    rewrite lookup_app_r by lia.
    replace (length h + i - length h) with i by lia.
    rewrite lookup_app_l by exact Hlt.
    destruct (lookup_lt_is_Some_2 m i Hlt) as [x ->]. reflexivity.
  - rewrite lookup_seq_ge by lia. simpl. symmetry.
    apply lookup_ge_None. lia.
Qed.

Section InitFacts.
Context `{NumpyRandom}.

(** The second half of [__init__], from the shuffle on. *)
Lemma init_finish (h2 : heap) (input_vocab output_vocab v1 v2 : Vocabulary)
    (batch_size : Z) (io oo : option (list ref)) (random_seed : Z) :
  let ps := zip (docs_tokens_encoded v1) (docs_tokens_encoded v2) in
  PAD_TOKEN v1 = PAD_TOKEN input_vocab ->
  PAD_TOKEN v2 = PAD_TOKEN output_vocab ->
  ('(g, self_input, self_output) ← _shuffle_vocab_data random_seed v1 v2;
    Ok (h2, g,
        {| self_input_vocab := self_input;
           self_output_vocab := self_output;
           self_batch_size := batch_size;
           self_input_docs_tokens_encoded := io;
           self_output_docs_tokens_encoded := oo;
           self_random_seed := random_seed;
           self_n_sentences := length (docs_tokens_encoded input_vocab);
           self_PAD_TOKEN := PAD_TOKEN input_vocab |}))
  = (g ← np_random_seed random_seed;
     match (np_random_shuffle g ps).1 with
     | [] => Raise ValueError
     | joined =>
         Ok (h2, (np_random_shuffle g ps).2,
             shuffled_loader input_vocab output_vocab batch_size io oo
               random_seed joined)
     end).
Proof.
  intros ps Hp1 Hp2. unfold _shuffle_vocab_data. fold ps.
  destruct (np_random_seed random_seed) as [g|e]; [|reflexivity].
  cbn [mbind result_bind].
  destruct (np_random_shuffle g ps) as [sh g'].
  rewrite unpack2_zip_star. cbn [fst snd].
  destruct sh as [|p sh]; [reflexivity|].
  cbn [mbind result_bind]. unfold shuffled_loader, set_docs.
  cbn [PAD_TOKEN]. rewrite Hp1, Hp2. reflexivity.
Qed.

(** Construction on a well-formed corpus: the pairs that get shuffled
    are private copies (or the explicit lists themselves), they share
    no object, and they hold the documents of the corpus. *)
Lemma init_spec (h : heap) (input_vocab output_vocab : Vocabulary)
    (batch_size : Z) (io oo : option (list ref)) (random_seed : Z) :
  corpus_ok h input_vocab output_vocab io oo ->
  exists (h2 : heap) (ps : list (ref * ref)),
    (exists ext, h2 = h ++ ext)
    /\ alias_free ps
    /\ valid_refs h2 (refs ps)
    /\ pair_values h2 ps = corpus_values h input_vocab output_vocab io oo
    /\ __init__ h input_vocab output_vocab batch_size io oo random_seed
       = (g ← np_random_seed random_seed;
          match (np_random_shuffle g ps).1 with
          | [] => Raise ValueError
          | joined =>
              Ok (h2, (np_random_shuffle g ps).2,
                  shuffled_loader input_vocab output_vocab batch_size io oo
                    random_seed joined)
          end).
Proof.
  intros Hok. unfold __init__, deepcopy.
  destruct (deepcopy_docs_extends (docs_tokens_encoded input_vocab) ∅ h)
    as [e1 He1].
  destruct (deepcopy_docs ∅ h (docs_tokens_encoded input_vocab))
    as [h1 di] eqn:E1.
  destruct (deepcopy_docs_extends (docs_tokens_encoded output_vocab) ∅ h1)
    as [e2 He2].
  destruct (deepcopy_docs ∅ h1 (docs_tokens_encoded output_vocab))
    as [h2 do_] eqn:E2.
  cbn [fst] in He1, He2. subst h1 h2.
  exists ((h ++ e1) ++ e2).
  destruct io as [i|], oo as [o|].
  1: { exists (zip i o). destruct Hok as [Hv Hnd].
       split; [exists (e1 ++ e2); rewrite app_assoc; reflexivity|].
       split; [apply alias_free_zip, Hnd|].
       split; [apply valid_refs_zip; do 2 apply valid_refs_app_heap; exact Hv|].
       split; [|apply init_finish; reflexivity].
       unfold corpus_values, corpus_refs. rewrite <- app_assoc.
       apply pair_values_frame. intros r Hr.
       apply lookup_app_l.
       apply valid_refs_zip in Hv. unfold valid_refs in Hv.
       rewrite Forall_forall in Hv. apply Hv, Hr. }
  all: destruct Hok as (Hv & Hnd1 & Hnd2);
    unfold valid_refs in Hv; apply Forall_app in Hv as [Hv1 Hv2];
    rewrite deepcopy_docs_NoDup in E1
      by (try assumption; intros; apply lookup_empty);
    injection E1 as He1 Hdi;
    apply app_inv_head in He1; subst e1 di;
    rewrite deepcopy_docs_NoDup in E2
      by (try assumption; try (intros; apply lookup_empty);
          apply valid_refs_app_heap; assumption);
    injection E2 as He2 Hdo;
    apply app_inv_head in He2; subst e2 do_;
    rewrite (map_deref_app_valid h _ _ Hv2);
    set (m1 := map (deref h) (docs_tokens_encoded input_vocab));
    set (m2 := map (deref h) (docs_tokens_encoded output_vocab));
    assert (Hl1 : length (docs_tokens_encoded input_vocab) = length m1)
      by (subst m1; rewrite length_map; reflexivity);
    assert (Hl2 : length (docs_tokens_encoded output_vocab) = length m2)
      by (subst m2; rewrite length_map; reflexivity);
    rewrite Hl1, Hl2;
    exists (zip (seq (length h) (length m1))
                (seq (length (h ++ m1)) (length m2)));
    (split; [eexists; rewrite <- app_assoc; reflexivity|]);
    (split; [apply alias_free_zip;
             rewrite (length_app h m1), <- seq_app; apply NoDup_seq|]);
    (split; [apply valid_refs_zip; unfold valid_refs;
             rewrite (length_app h m1), <- seq_app;
             apply Forall_forall; intros r Hr; apply elem_of_seq in Hr;
             rewrite !length_app; lia|]);
    (split; [|rewrite <- Hl1, <- Hl2; apply init_finish; reflexivity]);
    unfold corpus_values, corpus_refs;
    rewrite !pair_values_zip; fold m1 m2; f_equal;
    [ rewrite <- app_assoc; apply map_deref_seq
    | rewrite <- (app_nil_r m2) at 1; apply map_deref_seq ].
Qed.
End InitFacts.

Lemma refs_Permutation (ps ps' : list (ref * ref)) :
  ps ≡ₚ ps' -> refs ps ≡ₚ refs ps'.
Proof.
  intros Hp. unfold refs. change (map ?f ?l) with (f <$> l).
  rewrite Hp. reflexivity.
Qed.

Lemma shuffled_pairs_shuffled_loader (iv ov : Vocabulary) (bs : Z)
    (io oo : option (list ref)) (seed : Z) (joined : list (ref * ref)) :
  shuffled_pairs (shuffled_loader iv ov bs io oo seed joined) = joined.
Proof. unfold shuffled_pairs. simpl. apply zip_fst_snd. Qed.

Section RunFacts.
Context `{NumpyRandom}.

(** What the caller observes of a well-formed corpus is a function of
    its documents, the input pad id, the batch size, the stored
    sentence count and the seed. *)
Lemma run_spec (h : heap) (input_vocab output_vocab : Vocabulary)
    (batch_size : Z) (io oo : option (list ref)) (random_seed : Z) :
  corpus_ok h input_vocab output_vocab io oo ->
  run h input_vocab output_vocab batch_size io oo random_seed
  = run_values (PAD_TOKEN input_vocab) batch_size
      (length (docs_tokens_encoded input_vocab)) random_seed
      (corpus_values h input_vocab output_vocab io oo).
Proof.
  intros Hok.
  destruct (init_spec h input_vocab output_vocab batch_size io oo random_seed Hok)
    as (h2 & ps & _ & Haf & Hv & Hvals & Hinit).
  unfold run, run_values. rewrite Hinit, <- Hvals.
  destruct (np_random_seed random_seed) as [g|e]; [|reflexivity].
  cbn [mbind result_bind].
  change (pair_values h2 ps)
    with (map (fun p : nat * nat => (deref h2 p.1, deref h2 p.2)) ps).
  rewrite np_random_shuffle_map.
  pose proof (np_random_shuffle_Permutation g ps) as Hperm.
  destruct (np_random_shuffle g ps) as [sh g']. cbn [fst snd] in *.
  destruct sh as [|p sh]; [reflexivity|].
  set (joined := p :: sh) in *.
  change (map (fun p0 => (deref h2 p0.1, deref h2 p0.2)) joined)
    with (pair_values h2 joined).
  set (self := shuffled_loader _ _ _ _ _ _ joined).
  destruct (iter_spec self h2) as [h' Hit].
  - subst self. rewrite shuffled_pairs_shuffled_loader.
    unfold alias_free. rewrite (refs_Permutation _ _ Hperm). exact Haf.
  - subst self. rewrite shuffled_pairs_shuffled_loader.
    unfold valid_refs. rewrite (refs_Permutation _ _ Hperm). exact Hv.
  - cbn [mbind result_bind]. rewrite Hit. subst self.
    rewrite shuffled_pairs_shuffled_loader.
    cbn [self_PAD_TOKEN self_batch_size self_n_sentences shuffled_loader].
    replace (length (pair_values h2 joined)) with (length joined)
      by (unfold pair_values; rewrite length_map; reflexivity).
    subst joined. reflexivity.
Qed.
End RunFacts.

Section Constructed.
Context `{NumpyRandom}.

Lemma np_random_seed_ok (seed : Z) :
  (0 <= seed < 2 ^ 32)%Z -> np_random_seed seed = Ok (seed_state seed).
Proof.
  intros Hs. unfold np_random_seed.
  destruct (Z.leb_spec 0 seed); [|lia].
  destruct (Z.ltb_spec seed (2 ^ 32)); [reflexivity | lia].
Qed.

Lemma np_random_seed_inv (seed : Z) (g : rng_state) :
  np_random_seed seed = Ok g -> g = seed_state seed.
Proof.
  unfold np_random_seed. destruct (_ && _); [|discriminate].
  intros [= <-]. reflexivity.
Qed.

(** A loader that was constructed from a well-formed corpus. *)
Lemma init_ok_spec (h : heap) (input_vocab output_vocab : Vocabulary)
    (batch_size : Z) (io oo : option (list ref)) (random_seed : Z)
    (h2 : heap) (g : rng_state) (self : SmartDataLoader) :
  corpus_ok h input_vocab output_vocab io oo ->
  __init__ h input_vocab output_vocab batch_size io oo random_seed
  = Ok (h2, g, self) ->
  self_batch_size self = batch_size
  /\ self_n_sentences self = length (docs_tokens_encoded input_vocab)
  /\ self_PAD_TOKEN self = PAD_TOKEN input_vocab
  /\ alias_free (shuffled_pairs self)
  /\ valid_refs h2 (refs (shuffled_pairs self))
  /\ pair_values h2 (shuffled_pairs self)
     = (np_random_shuffle (seed_state random_seed)
          (corpus_values h input_vocab output_vocab io oo)).1
  /\ (exists ext, h2 = h ++ ext).
Proof.
  intros Hok Hinit.
  destruct (init_spec h input_vocab output_vocab batch_size io oo random_seed Hok)
    as (h2' & ps & Hext & Haf & Hv & Hvals & Heq).
  rewrite Heq in Hinit. clear Heq.
  destruct (np_random_seed random_seed) as [g0|e] eqn:Hseed; [|discriminate].
  apply np_random_seed_inv in Hseed. subst g0.
  cbn [mbind result_bind] in Hinit.
  pose proof (np_random_shuffle_Permutation (seed_state random_seed) ps) as Hperm.
  pose proof (np_random_shuffle_map
                (fun p : nat * nat => (deref h2' p.1, deref h2' p.2))
                (seed_state random_seed) ps) as Hmap.
  destruct (np_random_shuffle (seed_state random_seed) ps) as [sh g'].
  cbn [fst snd] in *.
  destruct sh as [|p sh]; [discriminate|].
  injection Hinit as <- <- <-.
  rewrite shuffled_pairs_shuffled_loader.
  repeat split; try reflexivity.
  - unfold alias_free. rewrite (refs_Permutation _ _ Hperm). exact Haf.
  - unfold valid_refs. rewrite (refs_Permutation _ _ Hperm). exact Hv.
  - rewrite <- Hvals. symmetry. exact Hmap.
  - exact Hext.
Qed.

(** Construction succeeds on a well-formed corpus that is not empty. *)
Lemma init_succeeds (h : heap) (input_vocab output_vocab : Vocabulary)
    (batch_size : Z) (io oo : option (list ref)) (random_seed : Z) :
  corpus_ok h input_vocab output_vocab io oo ->
  (0 <= random_seed < 2 ^ 32)%Z ->
  corpus_values h input_vocab output_vocab io oo <> [] ->
  exists h2 g self,
    __init__ h input_vocab output_vocab batch_size io oo random_seed
    = Ok (h2, g, self).
Proof.
  intros Hok Hseed Hne.
  destruct (init_spec h input_vocab output_vocab batch_size io oo random_seed Hok)
    as (h2 & ps & _ & _ & _ & Hvals & Heq).
  rewrite Heq, (np_random_seed_ok _ Hseed). cbn [mbind result_bind].
  pose proof (length_np_random_shuffle (seed_state random_seed) ps) as Hlen.
  destruct (np_random_shuffle (seed_state random_seed) ps) as [sh g'].
  cbn [fst snd] in *.
  destruct sh as [|p sh].
  - exfalso. apply Hne. rewrite <- Hvals.
    destruct ps; [reflexivity | discriminate].
  - eauto.
Qed.

(** A loader from a well-formed corpus yields the batches of its
    shuffled documents. *)
Lemma constructed_iter_spec (h : heap) (input_vocab output_vocab : Vocabulary)
    (batch_size : Z) (io oo : option (list ref)) (random_seed : Z)
    (h2 : heap) (g : rng_state) (self : SmartDataLoader) :
  corpus_ok h input_vocab output_vocab io oo ->
  __init__ h input_vocab output_vocab batch_size io oo random_seed
  = Ok (h2, g, self) ->
  exists h',
    __iter__ self h2
    = (h',
       map (batch_value (PAD_TOKEN input_vocab))
         (full_batches (Z.to_nat batch_size)
            (take (length (docs_tokens_encoded input_vocab))
               (pair_values h2 (shuffled_pairs self)))),
       if decide (length (pair_values h2 (shuffled_pairs self))
                  < length (docs_tokens_encoded input_vocab))
       then Some IndexError else None).
Proof.
  intros Hok Hinit.
  destruct (init_ok_spec _ _ _ _ _ _ _ _ _ _ Hok Hinit)
    as (Hbs & Hn & Hpad & Haf & Hv & _ & _).
  destruct (iter_spec self h2 Haf Hv) as [h' Hit].
  exists h'. rewrite Hit, Hbs, Hn, Hpad.
  replace (length (pair_values h2 (shuffled_pairs self)))
    with (length (shuffled_pairs self))
    by (unfold pair_values; rewrite length_map; reflexivity).
  reflexivity.
Qed.
End Constructed.

(** ** What an iteration can touch *)

Lemma lookup_insert_pads_ne (r r' : ref) (pad : Z) (k : nat) (h : heap) :
  r <> r' -> insert_pads r pad k h !! r' = h !! r'.
Proof. intros Hne. rewrite insert_pads_alter. apply list_lookup_alter_ne, Hne. Qed.

Lemma lookup_pad_doc_pair_ne (pad : Z) (im om : nat) (h : heap)
    (p : ref * ref) (r : ref) :
  r <> p.1 -> r <> p.2 -> pad_doc_pair pad im om h p !! r = h !! r.
Proof.
  intros H1 H2. unfold pad_doc_pair.
  destruct (_ <? om); destruct (_ <? im);
    rewrite ?lookup_insert_pads_ne by congruence; reflexivity.
Qed.

Lemma elem_of_refs_cons (r : ref) (p : ref * ref) (ps : list (ref * ref)) :
  r ∈ refs (p :: ps) <-> r = p.1 \/ r = p.2 \/ r ∈ refs ps.
Proof.
  unfold refs. cbn [map]. rewrite !elem_of_app, !elem_of_cons. tauto.
Qed.

Lemma fold_pad_frame (pad : Z) (im om : nat) (dp : list (ref * ref)) :
  forall (h : heap) (r : ref),
  r ∉ refs dp -> fold_left (pad_doc_pair pad im om) dp h !! r = h !! r.
Proof.
  induction dp as [|p dp IH]; intros h r Hr; [reflexivity|].
  rewrite elem_of_refs_cons in Hr. cbn [fold_left].
  rewrite IH by tauto. apply lookup_pad_doc_pair_ne; intros ->; tauto.
Qed.

(** Materialising a batch changes the documents of the batch only. *)
Lemma build_tensor_frame (pad : Z) (h : heap) (dp : list (ref * ref)) :
  length (_build_tensor pad h dp).1 = length h
  /\ forall r, r ∉ refs dp -> (_build_tensor pad h dp).1 !! r = h !! r.
Proof.
  unfold _build_tensor. destruct (max_lens h dp) as [im om]. cbn [fst].
  split; [apply length_fold_pad|]. intros r Hr. apply fold_pad_frame, Hr.
Qed.

Lemma walk_frame (pad batch_size : Z) (end_ : option PyErr)
    (ps : list (ref * ref)) :
  forall (h : heap) (batch : Z) (collected : list (ref * ref)),
  length (walk pad batch_size end_ ps h batch collected).1.1 = length h
  /\ forall r, r ∉ refs (collected ++ ps) ->
       (walk pad batch_size end_ ps h batch collected).1.1 !! r = h !! r.
Proof.
  induction ps as [|p rest IH]; intros h batch collected.
  - split; reflexivity.
  - cbn [walk].
    assert (Happ : collected ++ p :: rest = (collected ++ [p]) ++ rest)
      by (rewrite <- app_assoc; reflexivity).
    rewrite Happ.
    destruct (batch + 1 =? batch_size)%Z; [|apply IH].
    destruct (build_tensor_frame pad h (collected ++ [p])) as [Hlen Hfr].
    destruct (_build_tensor pad h (collected ++ [p])) as [h1 [t|e]];
      cbn [fst] in Hlen, Hfr.
    + destruct (IH h1 0%Z []) as [Hlen' Hfr'].
      destruct (walk pad batch_size end_ rest h1 0 []) as [[h2 ts] e].
      cbn [fst] in *. split; [congruence|].
      intros r Hr. rewrite refs_app, elem_of_app in Hr.
      rewrite Hfr' by tauto. apply Hfr. tauto.
    + cbn [fst]. split; [exact Hlen|].
      intros r Hr. rewrite refs_app, elem_of_app in Hr. apply Hfr. tauto.
Qed.

(** An iteration changes no object outside the pairs of the loader. *)
Lemma iter_frame (self : SmartDataLoader) (h : heap) :
  length (__iter__ self h).1.1 = length h
  /\ forall r, r ∉ refs (shuffled_pairs self) ->
       (__iter__ self h).1.1 !! r = h !! r.
Proof.
  rewrite iter_walk.
  destruct (walk_frame (self_PAD_TOKEN self) (self_batch_size self)
    (if decide (length (shuffled_pairs self) < self_n_sentences self)
     then Some IndexError else None)
    (take (self_n_sentences self) (shuffled_pairs self)) h 0%Z [])
    as [Hlen Hfr].
  split; [exact Hlen|]. intros r Hr. apply Hfr. cbn [app].
  intros Hin. apply Hr.
  rewrite <- (take_drop (self_n_sentences self) (shuffled_pairs self)).
  rewrite refs_app, elem_of_app. left. exact Hin.
Qed.

Lemma deepcopy_docs_fresh (L : nat) (docs : list ref) :
  forall (memo : gmap ref ref) (h : heap),
  L <= length h ->
  (forall r r', memo !! r = Some r' -> L <= r') ->
  Forall (fun r => L <= r) (deepcopy_docs memo h docs).2.
Proof.
  induction docs as [|r rest IH]; intros memo h HL Hmemo; [constructor|].
  cbn [deepcopy_docs]. destruct (memo !! r) as [r'|] eqn:Hr.
  - specialize (IH memo h HL Hmemo).
    destruct (deepcopy_docs memo h rest) as [h' out]. cbn [snd] in *.
    constructor; [eapply Hmemo, Hr | exact IH].
  - specialize (IH (<[r:=length h]> memo) (h ++ [deref h r])).
    destruct (deepcopy_docs _ (h ++ [deref h r]) rest) as [h' out].
    cbn [snd] in *. constructor; [exact HL|]. apply IH.
    + rewrite length_app. lia.
    + intros r1 r1' Hl. destruct (decide (r = r1)) as [->|Hne].
      * rewrite lookup_insert_eq in Hl. injection Hl as <-. exact HL.
      * rewrite lookup_insert_ne in Hl by exact Hne. eapply Hmemo, Hl.
Qed.

(** Why the two sides of a batch must not share an object: a document
    that is both the input and the output of its pair is padded twice,
    from lengths read before either padding, and no longer fits the
    other rows. *)
Lemma shared_sides_ragged :
  _build_tensor 0 heap_both doc_pairs_both
  = ([[0; 0; 0; 0; 1]; [1; 2; 3]]%Z, Raise ValueError).
Proof. reflexivity. Qed.

Section VocabularyPath.
Context `{NumpyRandom}.

(** Without explicit lists the loader holds copies only: every document
    it can reach was allocated by the construction. *)
Lemma init_copies_fresh (h : heap) (input_vocab output_vocab : Vocabulary)
    (batch_size : Z) (io oo : option (list ref)) (random_seed : Z)
    (h2 : heap) (g : rng_state) (self : SmartDataLoader) :
  io = None \/ oo = None ->
  __init__ h input_vocab output_vocab batch_size io oo random_seed
  = Ok (h2, g, self) ->
  (exists ext, h2 = h ++ ext)
  /\ Forall (fun r => length h <= r) (refs (shuffled_pairs self)).
Proof.
  intros Hnone. unfold __init__, deepcopy.
  destruct (deepcopy_docs_extends (docs_tokens_encoded input_vocab) ∅ h)
    as [e1 He1].
  pose proof (deepcopy_docs_fresh (length h)
      (docs_tokens_encoded input_vocab) ∅ h (Nat.le_refl _)) as Hf1.
  destruct (deepcopy_docs ∅ h (docs_tokens_encoded input_vocab))
    as [h1 di].
  destruct (deepcopy_docs_extends (docs_tokens_encoded output_vocab) ∅ h1)
    as [e2 He2].
  pose proof (deepcopy_docs_fresh (length h)
      (docs_tokens_encoded output_vocab) ∅ h1) as Hf2.
  destruct (deepcopy_docs ∅ h1 (docs_tokens_encoded output_vocab))
    as [h3 do_].
  cbn [fst snd] in *. subst h1 h3.
  assert (Hdi : Forall (fun r => length h <= r) di).
  { apply Hf1. intros r r' Hl. rewrite lookup_empty in Hl. discriminate. }
  assert (Hdo : Forall (fun r => length h <= r) do_).
  { apply Hf2; [rewrite length_app; lia|].
    intros r r' Hl. rewrite lookup_empty in Hl. discriminate. }
  assert (Hgoal :
    (g0 ← np_random_seed random_seed;
     match (np_random_shuffle g0 (zip di do_)).1 with
     | [] => Raise ValueError
     | joined =>
         Ok ((h ++ e1) ++ e2, (np_random_shuffle g0 (zip di do_)).2,
             shuffled_loader input_vocab output_vocab batch_size io oo
               random_seed joined)
     end) = Ok (h2, g, self) ->
    (exists ext, h2 = h ++ ext)
    /\ Forall (fun r => length h <= r) (refs (shuffled_pairs self))).
  { destruct (np_random_seed random_seed) as [g0|e]; [|discriminate].
    cbn [mbind result_bind].
    pose proof (np_random_shuffle_Permutation g0 (zip di do_)) as Hperm.
    destruct (np_random_shuffle g0 (zip di do_)) as [sh g'].
    cbn [fst snd] in *. destruct sh as [|p sh]; [discriminate|].
    intros [= <- <- <-]. split.
    - exists (e1 ++ e2). rewrite app_assoc. reflexivity.
    - rewrite shuffled_pairs_shuffled_loader, (refs_Permutation _ _ Hperm).
      apply Forall_forall. intros r Hr.
      pose proof (elem_of_sublist _ _ _ Hr (refs_zip_sublist di do_)) as Hr'.
      apply elem_of_app in Hr' as [Hi|Ho].
      + rewrite Forall_forall in Hdi. apply Hdi, Hi.
      + rewrite Forall_forall in Hdo. apply Hdo, Ho. }
  destruct io as [i|], oo as [o|]; try (destruct Hnone; discriminate);
    intros Hinit; apply Hgoal; rewrite <- Hinit; symmetry;
    apply (init_finish ((h ++ e1) ++ e2) input_vocab output_vocab
             {| docs_tokens_encoded := di; PAD_TOKEN := PAD_TOKEN input_vocab |}
             {| docs_tokens_encoded := do_; PAD_TOKEN := PAD_TOKEN output_vocab |});
    reflexivity.
Qed.

(** X10. The vocabulary path keeps its promise: without explicit lists
    on both sides, whatever the documents and however often the loader
    is iterated, the objects the caller had before the construction are
    never changed, neither by the construction nor by an iteration. *)
Lemma caller_documents_unchanged (h : heap)
    (input_vocab output_vocab : Vocabulary) (batch_size : Z)
    (io oo : option (list ref)) (random_seed : Z)
    (h2 : heap) (g : rng_state) (self : SmartDataLoader) :
  io = None \/ oo = None ->
  __init__ h input_vocab output_vocab batch_size io oo random_seed
  = Ok (h2, g, self) ->
  take (length h) h2 = h
  /\ forall hx : heap,
       take (length h) hx = h ->
       take (length h) (__iter__ self hx).1.1 = h.
Proof.
  intros Hnone Hinit.
  destruct (init_copies_fresh _ _ _ _ _ _ _ _ _ _ Hnone Hinit)
    as [[ext ->] Hfresh].
  split; [apply take_app_length|].
  intros hx Hx. destruct (iter_frame self hx) as [Hlen Hfr].
  rewrite <- Hx at 2. apply list_eq. intros i.
  destruct (decide (i < length h)) as [Hlt|Hge].
  - rewrite !lookup_take_lt by exact Hlt. apply Hfr.
    intros Hin. rewrite Forall_forall in Hfresh.
    specialize (Hfresh i Hin). simpl in Hfresh. lia.
  - rewrite !lookup_take_ge by lia. reflexivity.
Qed.
End VocabularyPath.

(** * The claims *)

Lemma Forall_length_full_batches {A : Type} (B : nat) (l : list A) :
  Forall (fun c => length c = B) (full_batches B l).
Proof.
  apply Forall_lookup. intros k c Hk.
  apply full_batches_lookup in Hk. tauto.
Qed.

Lemma length_corpus_values (h : heap) (iv ov : Vocabulary)
    (io oo : option (list ref)) :
  length (corpus_values h iv ov io oo)
  = Nat.min (length (corpus_refs iv ov io oo).1)
            (length (corpus_refs iv ov io oo).2).
Proof.
  unfold corpus_values. destruct (corpus_refs iv ov io oo) as [i o].
  unfold pair_values. rewrite length_map, length_zip. reflexivity.
Qed.



Section Claims.
Context `{NumpyRandom}.

(** X11. Where the length contract holds. A loader that was constructed
    over a corpus of [N] paired documents, none shared, whose input
    vocabulary itself holds [N] documents, with a batch size of at
    least one, reports [N // batch_size] as its length and, iterated,
    yields exactly that many batches without raising. The batches are
    cut, [batch_size] at a time, from the front of the shuffled order:
    together they hold its first [N - N mod batch_size] documents, so
    the last [N mod batch_size] are in no batch. *)
Theorem iter_yields_floor_div_batches
    (h : heap) (input_vocab output_vocab : Vocabulary) (batch_size : Z)
    (io oo : option (list ref)) (random_seed : Z) (N : nat)
    (h2 : heap) (g : rng_state) (self : SmartDataLoader) :
  corpus_ok h input_vocab output_vocab io oo ->
  length (corpus_refs input_vocab output_vocab io oo).1 = N ->
  length (corpus_refs input_vocab output_vocab io oo).2 = N ->
  length (docs_tokens_encoded input_vocab) = N ->
  (1 <= batch_size)%Z ->
  __init__ h input_vocab output_vocab batch_size io oo random_seed
  = Ok (h2, g, self) ->
  let shuffled := pair_values h2 (shuffled_pairs self) in
  __len__ self = Ok (Z.of_nat N / batch_size)%Z
  /\ length shuffled = N
  /\ exists h' chunks,
       __iter__ self h2
       = (h', map (batch_value (PAD_TOKEN input_vocab)) chunks, None)
       /\ Z.of_nat (length chunks) = (Z.of_nat N / batch_size)%Z
       /\ Forall (fun c => Z.of_nat (length c) = batch_size) chunks
       /\ concat chunks = take (N - N mod Z.to_nat batch_size) shuffled.
Proof.
  intros Hok Hin Hout Hn Hbs Hinit shuffled.
  destruct (init_ok_spec _ _ _ _ _ _ _ _ _ _ Hok Hinit)
    as (Hsbs & Hsn & _ & _ & _ & Hvals & _).
  assert (Hlen : length shuffled = N).
  { subst shuffled. rewrite Hvals, length_np_random_shuffle,
      length_corpus_values, Hin, Hout. lia. }
  split; [|split; [exact Hlen|]].
  - unfold __len__. rewrite Hsbs, Hsn, Hn.
    destruct (Z.eqb_spec batch_size 0); [lia | reflexivity].
  - destruct (constructed_iter_spec _ _ _ _ _ _ _ _ _ _ Hok Hinit)
      as [h' Hit].
    fold shuffled in Hit. rewrite Hn, Hlen in Hit.
    rewrite take_ge in Hit by lia.
    rewrite decide_False in Hit by lia.
    set (B := Z.to_nat batch_size) in *.
    exists h', (full_batches B shuffled).
    split; [exact Hit|]. split; [|split].
    + rewrite length_full_batches, Hlen, Nat2Z.inj_div.
      subst B. rewrite Z2Nat.id by lia. reflexivity.
    + eapply Forall_impl; [apply Forall_length_full_batches|].
      simpl. intros c ->. subst B. lia.
    + rewrite concat_full_batches, Hlen. f_equal.
      pose proof (Nat.div_mod_eq N B). lia.
Qed.


(** C10. The pad id of a loader is the one of the input vocabulary, and
    both sides of every batch are padded with it: column by column, the
    input tensor and the output tensor hold the documents of the batch
    with copies of the input pad id inserted, and what the caller
    observes does not depend on the pad id of the output vocabulary. *)
Theorem output_padded_with_input_pad
    (h : heap) (input_vocab output_vocab : Vocabulary) (batch_size : Z)
    (io oo : option (list ref)) (random_seed : Z)
    (h2 : heap) (g : rng_state) (self : SmartDataLoader) :
  corpus_ok h input_vocab output_vocab io oo ->
  __init__ h input_vocab output_vocab batch_size io oo random_seed
  = Ok (h2, g, self) ->
  self_PAD_TOKEN self = PAD_TOKEN input_vocab
  /\ (exists h' ts e chunks,
        __iter__ self h2 = (h', ts, e)
        /\ chunks
           = full_batches (Z.to_nat batch_size)
               (take (self_n_sentences self)
                  (pair_values h2 (shuffled_pairs self)))
        /\ Forall2
             (fun chunk t =>
                forall j d_in d_out,
                chunk !! j = Some (d_in, d_out) ->
                column t.1 j
                = pads_before_last (PAD_TOKEN input_vocab)
                    (max_list_with length chunk.*1 - length d_in) d_in
                /\ column t.2 j
                   = pads_before_last (PAD_TOKEN input_vocab)
                       (max_list_with length chunk.*2 - length d_out) d_out)
             chunks ts)
  /\ (forall pad' : Z,
        run h input_vocab
          {| docs_tokens_encoded := docs_tokens_encoded output_vocab;
             PAD_TOKEN := pad' |}
          batch_size io oo random_seed
        = run h input_vocab output_vocab batch_size io oo random_seed).
Proof.
  intros Hok Hinit.
  destruct (init_ok_spec _ _ _ _ _ _ _ _ _ _ Hok Hinit)
    as (_ & Hsn & Hpad & _).
  split; [exact Hpad|]. split.
  - destruct (constructed_iter_spec _ _ _ _ _ _ _ _ _ _ Hok Hinit)
      as [h' Hit].
    rewrite <- Hsn in Hit.
    eexists h', _, _, _. split; [exact Hit|]. split; [reflexivity|].
    change (map (batch_value ?p) ?l) with (batch_value p <$> l).
    apply Forall2_fmap_r, Forall_Forall2_diag, Forall_lookup.
    intros k chunk _ j d_in d_out Hj.
    unfold batch_value, compose. cbn [fst snd]. split.
    + apply column_padded_batch.
      change (map fst chunk) with (fst <$> chunk).
      rewrite list_lookup_fmap, Hj. reflexivity.
    + apply column_padded_batch.
      change (map snd chunk) with (snd <$> chunk).
      rewrite list_lookup_fmap, Hj. reflexivity.
  - intros pad'. rewrite !run_spec.
    + reflexivity.
    + exact Hok.
    + destruct io, oo; exact Hok.
Qed.

(** C4. Two constructions from the same documents on both sides, the
    same explicit lists if any, the same input pad id, the same batch
    size and the same seed are observed alike, wherever the documents
    live and whatever the generator did before: the shuffled orderings
    are equal, and so are the batches yielded, one by one, and the way
    the iteration ends. *)
Theorem same_seed_same_run
    (h1 h2 : heap) (iv1 ov1 iv2 ov2 : Vocabulary) (batch_size : Z)
    (io1 oo1 io2 oo2 : option (list ref)) (random_seed : Z) :
  corpus_ok h1 iv1 ov1 io1 oo1 ->
  corpus_ok h2 iv2 ov2 io2 oo2 ->
  map (deref h1) (docs_tokens_encoded iv1)
  = map (deref h2) (docs_tokens_encoded iv2) ->
  map (deref h1) (docs_tokens_encoded ov1)
  = map (deref h2) (docs_tokens_encoded ov2) ->
  PAD_TOKEN iv1 = PAD_TOKEN iv2 ->
  map (deref h1) <$> io1 = map (deref h2) <$> io2 ->
  map (deref h1) <$> oo1 = map (deref h2) <$> oo2 ->
  run h1 iv1 ov1 batch_size io1 oo1 random_seed
  = run h2 iv2 ov2 batch_size io2 oo2 random_seed.
Proof.
  intros Hok1 Hok2 Hin Hout Hpad Hio Hoo.
  rewrite !run_spec by assumption.
  rewrite Hpad.
  replace (length (docs_tokens_encoded iv1))
    with (length (docs_tokens_encoded iv2))
    by (rewrite <- (length_map (deref h2)), <- Hin, length_map; reflexivity).
  f_equal. unfold corpus_values, corpus_refs.
  destruct io1 as [i1|], io2 as [i2|]; try discriminate;
    destruct oo1 as [o1|], oo2 as [o2|]; try discriminate;
    cbn [fmap option_fmap option_map] in Hio, Hoo;
    rewrite !pair_values_zip; congruence.
Qed.


(** C7, as the code has it. A batch size below one is not rejected: on
    a well-formed corpus that is not empty, with a seed numpy accepts,
    construction succeeds and stores the batch size as given. Such a
    loader yields no batch at all, and its length raises a zero
    division for batch size zero and is the floor of the quotient for a
    negative one. *)
Theorem nonpositive_batch_size_accepted
    (h : heap) (input_vocab output_vocab : Vocabulary) (batch_size : Z)
    (io oo : option (list ref)) (random_seed : Z) :
  corpus_ok h input_vocab output_vocab io oo ->
  (0 <= random_seed < 2 ^ 32)%Z ->
  corpus_values h input_vocab output_vocab io oo <> [] ->
  (batch_size <= 0)%Z ->
  exists h2 g self,
    __init__ h input_vocab output_vocab batch_size io oo random_seed
    = Ok (h2, g, self)
    /\ self_batch_size self = batch_size
    /\ (exists h' e, __iter__ self h2 = (h', [], e))
    /\ __len__ self
       = if (batch_size =? 0)%Z then Raise ZeroDivisionError
         else Ok (Z.of_nat (length (docs_tokens_encoded input_vocab))
                  / batch_size)%Z.
Proof.
  intros Hok Hseed Hne Hbs.
  destruct (init_succeeds h input_vocab output_vocab batch_size io oo
              random_seed Hok Hseed Hne) as (h2 & g & self & Hinit).
  exists h2, g, self. split; [exact Hinit|].
  destruct (init_ok_spec _ _ _ _ _ _ _ _ _ _ Hok Hinit)
    as (Hsbs & Hsn & _).
  split; [exact Hsbs|]. split.
  - destruct (constructed_iter_spec _ _ _ _ _ _ _ _ _ _ Hok Hinit)
      as [h' Hit].
    replace (Z.to_nat batch_size) with 0 in Hit by lia.
    eexists h', _. exact Hit.
  - unfold __len__. rewrite Hsbs, Hsn. reflexivity.
Qed.

(** C8, as the code has it. With the vocabularies' own documents, of
    unequal counts [N_in] and [N_out] that are both at least one,
    construction succeeds and shuffles the documents zipped pair by
    pair, which silently truncates to the [min N_in N_out] pairs of the
    shorter side. When the input side is the shorter one, the
    iteration succeeds as well, and exactly these pairs are batched. *)
Theorem unequal_counts_zip_truncates
    (h : heap) (input_vocab output_vocab : Vocabulary) (batch_size : Z)
    (random_seed : Z) (N_in N_out : nat) :
  corpus_ok h input_vocab output_vocab None None ->
  (0 <= random_seed < 2 ^ 32)%Z ->
  length (docs_tokens_encoded input_vocab) = N_in ->
  length (docs_tokens_encoded output_vocab) = N_out ->
  N_in <> N_out -> 1 <= N_in -> 1 <= N_out ->
  exists shuffled ts e,
    run h input_vocab output_vocab batch_size None None random_seed
    = Ok (shuffled, ts, e)
    /\ length shuffled = Nat.min N_in N_out
    /\ shuffled ≡ₚ zip (map (deref h) (docs_tokens_encoded input_vocab))
                      (map (deref h) (docs_tokens_encoded output_vocab))
    /\ (N_in < N_out ->
        e = None
        /\ ts = map (batch_value (PAD_TOKEN input_vocab))
                  (full_batches (Z.to_nat batch_size) shuffled)).
Proof.
  intros Hok Hseed Hin Hout Hne Hi Ho.
  rewrite run_spec by exact Hok.
  unfold run_values. rewrite (np_random_seed_ok _ Hseed).
  cbn [mbind result_bind].
  set (corpus := corpus_values h input_vocab output_vocab None None).
  assert (Hcorpus : corpus
            = zip (map (deref h) (docs_tokens_encoded input_vocab))
                  (map (deref h) (docs_tokens_encoded output_vocab))).
  { subst corpus. unfold corpus_values, corpus_refs.
    apply pair_values_zip. }
  pose proof (np_random_shuffle_Permutation (seed_state random_seed) corpus)
    as Hperm.
  set (shuffled := (np_random_shuffle (seed_state random_seed) corpus).1) in *.
  assert (Hlen : length shuffled = Nat.min N_in N_out).
  { rewrite (Permutation_length Hperm). subst corpus.
    rewrite length_corpus_values. cbn [corpus_refs fst snd].
    rewrite Hin, Hout. reflexivity. }
  exists shuffled.
  destruct shuffled as [|p sh] eqn:Hsh; [simpl in Hlen; lia|].
  rewrite <- Hsh in *.
  eexists _, _. split; [reflexivity|]. split; [exact Hlen|].
  split; [rewrite <- Hcorpus; exact Hperm|].
  intros Hlt. rewrite Hin, Hlen. split.
  - apply decide_False. lia.
  - rewrite take_ge by lia. reflexivity.
Qed.

(** C1, on the code. Padding a two-token document of a batch whose
    longest input has three tokens puts the pad id before the last
    token, not after it. *)
Theorem build_tensor_pads_before_last_token :
  exists h' t_in t_out,
    _build_tensor 0 heap_short doc_pairs_short = (h', Ok (t_in, t_out))
    /\ column t_in 0 = [1; 0; 2]%Z
    /\ column t_in 0 <> ([1; 2] ++ replicate (3 - 2) 0)%Z.
Proof.
  eexists _, _, _. split; [reflexivity|]. split; [reflexivity|].
  discriminate.
Qed.

(** C6, on the code. With no document on either side, construction
    raises: unpacking the unzipped empty list into the two orderings
    fails (and so does a seed numpy rejects). *)
Theorem empty_corpus_construction_raises
    (h : heap) (pad_in pad_out batch_size random_seed : Z) :
  __init__ h {| docs_tokens_encoded := []; PAD_TOKEN := pad_in |}
    {| docs_tokens_encoded := []; PAD_TOKEN := pad_out |}
    batch_size None None random_seed
  = Raise ValueError.
Proof.
  unfold __init__, deepcopy, _shuffle_vocab_data, np_random_seed. simpl.
  destruct (_ && _); reflexivity.
Qed.


(** C5, on the code. Explicit lists are not copied: the loader walks
    the caller's own objects. Here the caller passes the document lists
    of the vocabularies as the explicit lists; construction leaves the
    four documents as they were, and one iteration with both pairs in a
    batch pads the second input document in place, whichever way the
    shuffle went. *)
Theorem explicit_lists_padded_in_place :
  exists h2 g self h' ts,
    __init__ heap_own input_vocab_own output_vocab_own 2
      (Some (docs_tokens_encoded input_vocab_own))
      (Some (docs_tokens_encoded output_vocab_own)) 0
    = Ok (h2, g, self)
    /\ take 4 h2 = heap_own
    /\ __iter__ self h2 = (h', ts, None)
    /\ heap_own !! 1 = Some [3]%Z
    /\ h' !! 1 = Some [0; 3]%Z.
Proof.
  unfold __init__, deepcopy, _shuffle_vocab_data, np_random_seed,
    np_random_shuffle.
  simpl.
  destruct (random_interval (seed_state 0) 1) as [j g'].
  destruct j as [|[|j]]; eexists _, _, _, _, _;
    (split; [reflexivity|]); repeat split; reflexivity.
Qed.

(** C9, on the code. With explicit lists of two documents a side and
    vocabularies of one, the loader walks the explicit lists, but its
    sentence count is the vocabulary's: the length is one and a single
    batch of one pair is yielded, whatever the shuffle did. *)
Theorem sentence_count_ignores_explicit_lists :
  exists h2 g self h' ts,
    __init__ heap_more input_vocab_one output_vocab_one 1
      (Some [2; 3]) (Some [4; 5]) 0
    = Ok (h2, g, self)
    /\ length (shuffled_pairs self) = 2
    /\ self_n_sentences self = 1
    /\ __len__ self = Ok 1%Z
    /\ __iter__ self h2 = (h', ts, None)
    /\ length ts = 1.
Proof.
  unfold __init__, deepcopy, _shuffle_vocab_data, np_random_seed,
    np_random_shuffle.
  simpl.
  destruct (random_interval (seed_state 0) 1) as [j g'].
  destruct j as [|[|j]]; eexists _, _, _, _, _;
    (split; [reflexivity|]); repeat split; reflexivity.
Qed.

End Claims.

(** ** Concrete runs *)

Lemma corpus_ok3 : corpus_ok heap3 input_vocab3 output_vocab3 None None.
Proof.
  unfold corpus_ok, valid_refs. simpl.
  split; [|split]; apply (bool_decide_unpack _); vm_compute; exact I.
Qed.

Lemma init3 (batch_size : Z) :
  __init__ (H:=lcg) heap3 input_vocab3 output_vocab3 batch_size None None 0
  = Ok (heap3_copied, lcg_state3, loader3 batch_size).
Proof. reflexivity. Qed.

Lemma iter_yields_floor_div_batches_witness :
  corpus_ok heap3 input_vocab3 output_vocab3 None None
  /\ (1 <= 2)%Z
  /\ __len__ (loader3 2) = Ok (Z.of_nat 3 / 2)%Z
  /\ length (pair_values heap3_copied (shuffled_pairs (loader3 2))) = 3
  /\ exists h' chunks,
       __iter__ (loader3 2) heap3_copied
       = (h', map (batch_value (PAD_TOKEN input_vocab3)) chunks, None)
       /\ Z.of_nat (length chunks) = (Z.of_nat 3 / 2)%Z
       /\ Forall (fun c => Z.of_nat (length c) = 2%Z) chunks
       /\ concat chunks
          = take (3 - 3 mod Z.to_nat 2)
              (pair_values heap3_copied (shuffled_pairs (loader3 2))).
Proof.
  split; [exact corpus_ok3|]. split; [lia|].
  apply (iter_yields_floor_div_batches (H:=lcg) heap3 input_vocab3
           output_vocab3 2 None None 0 3 heap3_copied lcg_state3 (loader3 2)).
  - exact corpus_ok3.
  - reflexivity.
  - reflexivity.
  - reflexivity.
  - lia.
  - reflexivity.
Defined.

Lemma corpus_ok3_rev :
  corpus_ok heap3_rev input_vocab3_rev output_vocab3_rev None None.
Proof.
  unfold corpus_ok, valid_refs. simpl.
  split; [|split]; apply (bool_decide_unpack _); vm_compute; exact I.
Qed.


Lemma output_padded_with_input_pad_witness :
  corpus_ok heap3 input_vocab3 output_vocab3 None None
  /\ self_PAD_TOKEN (loader3 3) = PAD_TOKEN input_vocab3
  /\ (exists h' ts e chunks,
        __iter__ (loader3 3) heap3_copied = (h', ts, e)
        /\ chunks
           = full_batches (Z.to_nat 3)
               (take (self_n_sentences (loader3 3))
                  (pair_values heap3_copied (shuffled_pairs (loader3 3))))
        /\ Forall2
             (fun chunk t =>
                forall j d_in d_out,
                chunk !! j = Some (d_in, d_out) ->
                column t.1 j
                = pads_before_last (PAD_TOKEN input_vocab3)
                    (max_list_with length chunk.*1 - length d_in) d_in
                /\ column t.2 j
                   = pads_before_last (PAD_TOKEN input_vocab3)
                       (max_list_with length chunk.*2 - length d_out) d_out)
             chunks ts)
  /\ (forall pad' : Z,
        run (H:=lcg) heap3 input_vocab3
          {| docs_tokens_encoded := docs_tokens_encoded output_vocab3;
             PAD_TOKEN := pad' |}
          3 None None 0
        = run (H:=lcg) heap3 input_vocab3 output_vocab3 3 None None 0).
Proof.
  split; [exact corpus_ok3|].
  apply (output_padded_with_input_pad (H:=lcg) heap3 input_vocab3
           output_vocab3 3 None None 0 heap3_copied lcg_state3 (loader3 3)).
  - exact corpus_ok3.
  - reflexivity.
Defined.

Lemma same_seed_same_run_witness :
  corpus_ok heap3 input_vocab3 output_vocab3 None None
  /\ corpus_ok heap3_rev input_vocab3_rev output_vocab3_rev None None
  /\ run (H:=lcg) heap3 input_vocab3 output_vocab3 2 None None 0
     = run (H:=lcg) heap3_rev input_vocab3_rev output_vocab3_rev 2 None None 0.
Proof.
  split; [exact corpus_ok3|]. split; [exact corpus_ok3_rev|].
  apply (same_seed_same_run (H:=lcg) heap3 heap3_rev input_vocab3
           output_vocab3 input_vocab3_rev output_vocab3_rev 2
           None None None None 0).
  - exact corpus_ok3.
  - exact corpus_ok3_rev.
  - reflexivity.
  - reflexivity.
  - reflexivity.
  - reflexivity.
  - reflexivity.
Defined.

(** C7, as stated, fails: with batch size zero a loader over one pair
    of documents is constructed (a single pair is shuffled without a
    draw, so the generator plays no part). *)
Lemma batch_size_zero_is_constructed :
  __init__ (H:=lcg) heap_more input_vocab_one output_vocab_one 0 None None 0
  = Ok (heap_more ++ [[1]; [2]]%Z, seed_state 0,
        {| self_input_vocab := {| docs_tokens_encoded := [6]; PAD_TOKEN := 0 |};
           self_output_vocab := {| docs_tokens_encoded := [7]; PAD_TOKEN := 0 |};
           self_batch_size := 0;
           self_input_docs_tokens_encoded := None;
           self_output_docs_tokens_encoded := None;
           self_random_seed := 0;
           self_n_sentences := 1;
           self_PAD_TOKEN := 0 |}).
Proof. reflexivity. Qed.

Lemma nonpositive_batch_size_accepted_witness :
  corpus_ok heap3 input_vocab3 output_vocab3 None None
  /\ (0 <= 0)%Z
  /\ exists h2 g self,
       __init__ (H:=lcg) heap3 input_vocab3 output_vocab3 0 None None 0
       = Ok (h2, g, self)
       /\ self_batch_size self = 0%Z
       /\ (exists h' e, __iter__ self h2 = (h', [], e))
       /\ __len__ self
          = if (0 =? 0)%Z then Raise ZeroDivisionError
            else Ok (Z.of_nat (length (docs_tokens_encoded input_vocab3)) / 0)%Z.
Proof.
  split; [exact corpus_ok3|]. split; [lia|].
  apply (nonpositive_batch_size_accepted (H:=lcg) heap3 input_vocab3
           output_vocab3 0 None None 0).
  - exact corpus_ok3.
  - split; [lia | reflexivity].
  - vm_compute. discriminate.
  - lia.
Defined.

(** C8, as stated, fails: with two input documents and one output
    document the single zipped pair is yielded, and then the walk runs
    past it. *)
Lemma longer_input_side_index_error :
  run (H:=lcg) heap21 input_vocab21 output_vocab21 1 None None 0
  = Ok ([([1], [3])]%Z,
        [(Arr2 1 1 [[1]], Arr2 1 1 [[3]])]%Z,
        Some IndexError).
Proof. reflexivity. Qed.

Lemma corpus_ok13 : corpus_ok heap3 input_vocab_one output_vocab3 None None.
Proof.
  unfold corpus_ok, valid_refs. simpl.
  split; [|split]; apply (bool_decide_unpack _); vm_compute; exact I.
Qed.

Lemma unequal_counts_zip_truncates_witness :
  corpus_ok heap3 input_vocab_one output_vocab3 None None
  /\ 1 <> 3
  /\ exists shuffled ts e,
       run (H:=lcg) heap3 input_vocab_one output_vocab3 1 None None 0
       = Ok (shuffled, ts, e)
       /\ length shuffled = Nat.min 1 3
       /\ shuffled
          ≡ₚ zip (map (deref heap3) (docs_tokens_encoded input_vocab_one))
                (map (deref heap3) (docs_tokens_encoded output_vocab3))
       /\ (1 < 3 ->
           e = None
           /\ ts = map (batch_value (PAD_TOKEN input_vocab_one))
                     (full_batches (Z.to_nat 1) shuffled)).
Proof.
  split; [exact corpus_ok13|]. split; [lia|].
  apply (unequal_counts_zip_truncates (H:=lcg) heap3 input_vocab_one
           output_vocab3 1 0 1 3).
  - exact corpus_ok13.
  - split; [lia | reflexivity].
  - reflexivity.
  - reflexivity.
  - lia.
  - lia.
  - lia.
Defined.

(** * Further properties of the loader *)

(** ** Materialising a batch *)

Lemma max_list_with_uniform {A : Type} (f : A -> nat) (m : nat) (l : list A) :
  l <> [] -> Forall (fun x => f x = m) l -> max_list_with f l = m.
Proof.
  intros Hne Hall. induction Hall as [|x l Hx Hall IH]; [congruence|].
  simpl. destruct l as [|y l'].
  - simpl. lia.
  - rewrite IH by discriminate. lia.
Qed.

Lemma Forall_length_pad_to (pad : Z) (docs : list (list Z)) :
  Forall (fun d => length d = max_list_with length docs)
    (map (pad_to pad (max_list_with length docs)) docs).
Proof.
  apply Forall_map. eapply Forall_impl; [apply max_list_with_length_ge|].
  simpl. intros d Hd. rewrite length_pad_to. lia.
Qed.

(** Padding a batch that is padded already gives the same tensor. *)
Lemma padded_batch_pad_to (pad : Z) (docs : list (list Z)) :
  padded_batch pad (map (pad_to pad (max_list_with length docs)) docs)
  = padded_batch pad docs.
Proof.
  destruct (decide (docs = [])) as [->|Hne]; [reflexivity|].
  unfold padded_batch.
  rewrite (max_list_with_uniform length (max_list_with length docs)
             (map (pad_to pad (max_list_with length docs)) docs));
    [|destruct docs; [congruence | discriminate]
     |apply Forall_length_pad_to].
  rewrite length_map, map_map. do 3 f_equal.
  apply map_ext. intros d. apply pad_to_idemp.
Qed.

Lemma fold_pad_id (pad : Z) (im om : nat) (dp : list (ref * ref)) (h : heap) :
  Forall (fun p => im <= doc_len h p.1 /\ om <= doc_len h p.2) dp ->
  fold_left (pad_doc_pair pad im om) dp h = h.
Proof.
  induction 1 as [|p dp [Hi Ho] _ IH]; [reflexivity|].
  cbn [fold_left]. unfold pad_doc_pair at 2.
  destruct (Nat.ltb_spec (doc_len h p.1) im); [lia|].
  destruct (Nat.ltb_spec (doc_len h p.2) om); [lia|].
  exact IH.
Qed.

(** A batch whose documents have one length on each side is read as it
    is: nothing is inserted anywhere. *)
Lemma build_tensor_uniform (pad : Z) (h : heap) (dp : list (ref * ref))
    (li lo : nat) :
  dp <> [] ->
  Forall (fun p => doc_len h p.1 = li /\ doc_len h p.2 = lo) dp ->
  _build_tensor pad h dp = (h, Ok (batch_value pad (pair_values h dp))).
Proof.
  intros Hne Hall.
  assert (Hin : Forall (fun d => length d = li) (map (deref h) (map fst dp))).
  { rewrite map_map. apply Forall_map. eapply Forall_impl; [exact Hall|].
    simpl. unfold doc_len. tauto. }
  assert (Hout : Forall (fun d => length d = lo) (map (deref h) (map snd dp))).
  { rewrite map_map. apply Forall_map. eapply Forall_impl; [exact Hall|].
    simpl. unfold doc_len. tauto. }
  assert (Hne1 : map (deref h) (map fst dp) <> [])
    by (destruct dp; [congruence | discriminate]).
  assert (Hne2 : map (deref h) (map snd dp) <> [])
    by (destruct dp; [congruence | discriminate]).
  unfold _build_tensor. rewrite max_lens_spec.
  rewrite (max_list_with_uniform length li _ Hne1 Hin).
  rewrite (max_list_with_uniform length lo _ Hne2 Hout).
  rewrite fold_pad_id
    by (eapply Forall_impl; [exact Hall|]; simpl; intros p [-> ->]; lia).
  f_equal.
  rewrite (np_array_uniform li _ Hne1 Hin).
  rewrite (np_array_uniform lo _ Hne2 Hout).
  cbn [mbind result_bind]. unfold batch_value, padded_batch.
  rewrite map_fst_pair_values, map_snd_pair_values.
  rewrite (max_list_with_uniform length li _ Hne1 Hin).
  rewrite (max_list_with_uniform length lo _ Hne2 Hout).
  assert (Hid : forall (m : nat) (docs : list (list Z)),
            Forall (fun d => length d = m) docs ->
            map (pad_to pad m) docs = docs).
  { intros m docs Hm. induction Hm as [|d docs Hd _ IH]; [reflexivity|].
    simpl. rewrite IH, pad_to_id by lia. reflexivity. }
  rewrite (Hid li _ Hin), (Hid lo _ Hout). reflexivity.
Qed.

Lemma build_tensor_heap (pad : Z) (h : heap) (dp : list (ref * ref)) :
  (_build_tensor pad h dp).1
  = fold_left
      (pad_doc_pair pad
         (max_list_with length (map (deref h) (map fst dp)))
         (max_list_with length (map (deref h) (map snd dp))))
      dp h.
Proof. unfold _build_tensor. rewrite max_lens_spec. reflexivity. Qed.

(** What materialising a batch does to the heap. *)
Lemma build_tensor_effect (pad : Z) (h : heap) (dp : list (ref * ref)) :
  dp <> [] ->
  valid_refs h (refs dp) ->
  sides_apart dp ->
  let im := max_list_with length (map (deref h) (map fst dp)) in
  let om := max_list_with length (map (deref h) (map snd dp)) in
  exists h',
    _build_tensor pad h dp = (h', Ok (batch_value pad (pair_values h dp)))
    /\ length h' = length h
    /\ (forall a d, a ∈ map fst dp -> h !! a = Some d ->
          h' !! a = Some (pad_to pad im d)
          /\ doc_len h' a = im)
    /\ (forall b d, b ∈ map snd dp -> h !! b = Some d ->
          h' !! b = Some (pad_to pad om d)
          /\ doc_len h' b = om)
    /\ (forall r, r ∉ refs dp -> h' !! r = h !! r).
Proof.
  intros Hne Hv Hs im om.
  unfold valid_refs, refs in Hv. apply Forall_app in Hv as [Hvi Hvo].
  destruct (build_tensor_spec pad h dp Hne Hvi Hvo Hs)
    as (h' & Heq & Hlen & _).
  exists h'.
  split; [exact Heq|]. split; [exact Hlen|].
  assert (Hh' : h' = fold_left (pad_doc_pair pad im om) dp h).
  { subst im om. rewrite <- (build_tensor_heap pad h dp), Heq. reflexivity. }
  assert (Hle : forall (rs : list ref) r d,
            r ∈ rs -> h !! r = Some d ->
            length d <= max_list_with length (map (deref h) rs)).
  { intros rs r d Hr Hd.
    pose proof (max_list_with_length_ge (map (deref h) rs)) as Hall.
    rewrite Forall_forall in Hall. apply (Hall d).
    apply list_elem_of_fmap. exists r. split; [|exact Hr].
    symmetry. apply deref_lookup, Hd. }
  split; [|split].
  - intros a d Ha Hd.
    assert (Hl : h' !! a = Some (pad_to pad im d)).
    { rewrite Hh', fold_pad_lookup by exact Hs.
      rewrite decide_True by exact Ha. rewrite Hd. reflexivity. }
    split.
    + exact Hl.
    + unfold doc_len. rewrite (deref_lookup _ _ _ Hl), length_pad_to.
      pose proof (Hle _ _ _ Ha Hd). fold im in H. lia.
  - intros b d Hb Hd.
    assert (Hl : h' !! b = Some (pad_to pad om d)).
    { rewrite Hh', fold_pad_lookup by exact Hs.
      rewrite decide_False by (intros Hin; exact (Hs b b Hin Hb eq_refl)).
      rewrite decide_True by exact Hb. rewrite Hd. reflexivity. }
    split.
    + exact Hl.
    + unfold doc_len. rewrite (deref_lookup _ _ _ Hl), length_pad_to.
      pose proof (Hle _ _ _ Hb Hd). fold om in H. lia.
  - intros r Hr. rewrite Hh'. apply fold_pad_frame, Hr.
Qed.

(** X1. A batch whose two sides share no object is always materialised:
    the call returns its two tensors, and the padding is done on the
    documents themselves. Afterwards every input document of the batch
    holds its padded form, as long as the longest input of the batch,
    every output document likewise for the outputs, and no other object
    of the heap has changed, nor has the heap grown. *)
Theorem build_tensor_pads_in_place (pad : Z) (h : heap) (dp : list (ref * ref)) :
  dp <> [] ->
  valid_refs h (refs dp) ->
  sides_apart dp ->
  let im := max_list_with length (map (deref h) (map fst dp)) in
  let om := max_list_with length (map (deref h) (map snd dp)) in
  exists h' t,
    _build_tensor pad h dp = (h', Ok t)
    /\ length h' = length h
    /\ (forall a d, a ∈ map fst dp -> h !! a = Some d ->
          h' !! a = Some (pads_before_last pad (im - length d) d)
          /\ doc_len h' a = im)
    /\ (forall b d, b ∈ map snd dp -> h !! b = Some d ->
          h' !! b = Some (pads_before_last pad (om - length d) d)
          /\ doc_len h' b = om)
    /\ (forall r, r ∉ refs dp -> h' !! r = h !! r).
Proof.
  intros Hne Hv Hs im om.
  destruct (build_tensor_effect pad h dp Hne Hv Hs)
    as (h' & Heq & Hlen & Hi & Ho & Hfr).
  exists h', (batch_value pad (pair_values h dp)).
  split; [exact Heq|]. split; [exact Hlen|]. split; [|split].
  - intros a d Ha Hd. rewrite <- pad_to_spec. apply Hi; assumption.
  - intros b d Hb Hd. rewrite <- pad_to_spec. apply Ho; assumption.
  - exact Hfr.
Qed.

Lemma elem_of_map_fst_pair (p : ref * ref) (dp : list (ref * ref)) :
  p ∈ dp -> p.1 ∈ map fst dp /\ p.2 ∈ map snd dp.
Proof.
  intros Hp. split; apply list_elem_of_fmap; exists p; split;
    (reflexivity || exact Hp).
Qed.

(** Once a batch is materialised its documents have one length a side,
    and reading them again gives the tensors they gave. *)
Lemma build_tensor_settled (pad : Z) (h : heap) (dp : list (ref * ref)) :
  dp <> [] ->
  valid_refs h (refs dp) ->
  sides_apart dp ->
  exists h' li lo,
    _build_tensor pad h dp = (h', Ok (batch_value pad (pair_values h dp)))
    /\ length h' = length h
    /\ (forall r, r ∉ refs dp -> h' !! r = h !! r)
    /\ Forall (fun p => doc_len h' p.1 = li /\ doc_len h' p.2 = lo) dp
    /\ batch_value pad (pair_values h' dp)
       = batch_value pad (pair_values h dp).
Proof.
  intros Hne Hv Hs.
  destruct (build_tensor_effect pad h dp Hne Hv Hs)
    as (h' & Heq & Hlen & Hi & Ho & Hfr).
  set (im := max_list_with length (map (deref h) (map fst dp))) in *.
  set (om := max_list_with length (map (deref h) (map snd dp))) in *.
  exists h', im, om. split; [exact Heq|]. split; [exact Hlen|].
  split; [exact Hfr|].
  unfold valid_refs, refs in Hv. apply Forall_app in Hv as [Hvi Hvo].
  rewrite Forall_forall in Hvi, Hvo.
  assert (Hvals : pair_values h' dp
            = map (fun v => (pad_to pad im v.1, pad_to pad om v.2))
                (pair_values h dp)).
  { unfold pair_values. rewrite map_map. apply map_ext_in.
    intros p Hp. apply list_elem_of_In in Hp.
    destruct (elem_of_map_fst_pair p dp Hp) as [H1 H2]. cbn [fst snd].
    destruct (Hi p.1 _ H1 (valid_lookup h _ (Hvi _ H1))) as [Hl1 _].
    destruct (Ho p.2 _ H2 (valid_lookup h _ (Hvo _ H2))) as [Hl2 _].
    rewrite (deref_lookup _ _ _ Hl1), (deref_lookup _ _ _ Hl2). reflexivity. }
  split.
  - apply Forall_forall. intros p Hp.
    destruct (elem_of_map_fst_pair p dp Hp) as [H1 H2].
    destruct (Hi p.1 _ H1 (valid_lookup h _ (Hvi _ H1))) as [_ Hd1].
    destruct (Ho p.2 _ H2 (valid_lookup h _ (Hvo _ H2))) as [_ Hd2].
    split; assumption.
  - rewrite Hvals. unfold batch_value. rewrite !map_map. cbn [fst snd].
    rewrite <- (map_map fst (pad_to pad im)),
            <- (map_map snd (pad_to pad om)).
    subst im om. rewrite <- map_fst_pair_values, <- map_snd_pair_values.
    rewrite !padded_batch_pad_to. reflexivity.
Qed.

(** X2. Materialising the same batch a second time changes nothing
    more: the heap stays as the first call left it, and the same two
    tensors are returned. *)
Theorem build_tensor_twice (pad : Z) (h : heap) (dp : list (ref * ref)) :
  dp <> [] ->
  valid_refs h (refs dp) ->
  sides_apart dp ->
  exists h' t,
    _build_tensor pad h dp = (h', Ok t)
    /\ _build_tensor pad h' dp = (h', Ok t).
Proof.
  intros Hne Hv Hs.
  destruct (build_tensor_settled pad h dp Hne Hv Hs)
    as (h' & li & lo & Heq & _ & _ & Huni & Hsame).
  exists h', (batch_value pad (pair_values h dp)).
  split; [exact Heq|].
  rewrite (build_tensor_uniform pad h' dp li lo Hne Huni), Hsame.
  reflexivity.
Qed.

(** ** Iterating *)

Lemma walk_one (pad : Z) (end_ : option PyErr) (ps : list (ref * ref)) :
  forall h : heap,
  walk pad 1 end_ ps h 0%Z []
  = (h, map (fun v => batch_value pad [v]) (pair_values h ps), end_).
Proof.
  induction ps as [|p rest IH]; intros h; [reflexivity|].
  cbn [walk app]. change (0 + 1 =? 1)%Z with true. cbv iota.
  rewrite (build_tensor_uniform pad h [p] (doc_len h p.1) (doc_len h p.2));
    [|discriminate|repeat constructor].
  rewrite IH. reflexivity.
Qed.

Lemma column_batch_value_single (pad : Z) (v : list Z * list Z) :
  column (batch_value pad [v]).1 0 = v.1
  /\ column (batch_value pad [v]).2 0 = v.2.
Proof.
  unfold batch_value. cbn [fst snd map].
  split.
  - rewrite (column_padded_batch pad [v.1] 0 v.1 eq_refl).
    cbn [max_list_with].
    replace (length v.1 `max` 0 - length v.1) with 0 by lia.
    apply pads_before_last_0.
  - rewrite (column_padded_batch pad [v.2] 0 v.2 eq_refl).
    cbn [max_list_with].
    replace (length v.2 `max` 0 - length v.2) with 0 by lia.
    apply pads_before_last_0.
Qed.

(** X3. With a batch size of one nothing is ever padded: an iteration
    leaves the whole heap as it is, whatever the documents share, and
    yields one batch per walked pair, whose two tensors are single
    columns holding the input and the output document unchanged. The
    walk ends in an index error exactly when the sentence count exceeds
    the number of pairs. *)
Theorem batch_size_one_never_pads (self : SmartDataLoader) (h : heap) :
  self_batch_size self = 1%Z ->
  exists ts,
    __iter__ self h
    = (h, ts,
       if decide (length (shuffled_pairs self) < self_n_sentences self)
       then Some IndexError else None)
    /\ Forall2
         (fun v t =>
            column t.1 0 = v.1 /\ column t.2 0 = v.2
            /\ shape t.1 = [length v.1; 1] /\ shape t.2 = [length v.2; 1])
         (take (self_n_sentences self)
            (pair_values h (shuffled_pairs self)))
         ts.
Proof.
  intros Hbs. rewrite iter_walk, Hbs, walk_one.
  eexists. split; [reflexivity|].
  unfold pair_values. change (map ?f ?l) with (f <$> l).
  rewrite <- fmap_take. rewrite <- list_fmap_compose.
  apply Forall2_fmap, Forall_Forall2_diag, Forall_forall.
  intros p _. unfold compose.
  destruct (column_batch_value_single (self_PAD_TOKEN self)
              (deref h p.1, deref h p.2)) as [H1 H2].
  split; [exact H1|]. split; [exact H2|].
  unfold batch_value. cbn [fst snd map]. rewrite !shape_padded_batch.
  cbn [max_list_with length]. split; f_equal; lia.
Qed.

(** A second walk from the heap the first one left finds every batch
    materialised already. *)
Lemma walk_again (pad batch_size : Z) (end_ : option PyErr)
    (ps : list (ref * ref)) :
  forall (h : heap) (batch : Z) (collected : list (ref * ref)),
  alias_free (collected ++ ps) ->
  valid_refs h (refs (collected ++ ps)) ->
  exists h' ts,
    walk pad batch_size end_ ps h batch collected = (h', ts, end_)
    /\ walk pad batch_size end_ ps h' batch collected = (h', ts, end_).
Proof.
  induction ps as [|p rest IH]; intros h batch collected Haf Hv.
  - exists h, []. split; reflexivity.
  - cbn [walk].
    assert (Happ : collected ++ p :: rest = (collected ++ [p]) ++ rest)
      by (rewrite <- app_assoc; reflexivity).
    rewrite Happ in Haf, Hv.
    destruct (batch + 1 =? batch_size)%Z; [|apply IH; assumption].
    destruct (alias_free_app _ _ Haf) as (Hc & Hrest & Hdisj).
    apply valid_refs_app in Hv as [Hvc Hvr].
    set (dp := collected ++ [p]) in *.
    assert (Hne : dp <> []) by (subst dp; destruct collected; discriminate).
    destruct (build_tensor_settled pad h dp Hne Hvc
                (alias_free_sides_apart _ Hc))
      as (h1 & li & lo & Hbt & Hlen & Hframe & Huni & Hsame).
    destruct (IH h1 0%Z [] Hrest (valid_refs_length _ _ _ Hlen Hvr))
      as (h' & ts & Hw1 & Hw2).
    exists h', (batch_value pad (pair_values h dp) :: ts).
    rewrite Hbt, Hw1. split; [reflexivity|].
    destruct (walk_frame pad batch_size end_ rest h1 0%Z []) as [_ Hfr'].
    rewrite Hw1 in Hfr'. cbn [fst app] in Hfr'.
    assert (Hagree : forall r, r ∈ refs dp -> h' !! r = h1 !! r).
    { intros r Hr. apply Hfr'. exact (Hdisj r Hr). }
    rewrite (build_tensor_uniform pad h' dp li lo Hne).
    + rewrite (pair_values_frame h1 h' dp Hagree), Hsame, Hw2. reflexivity.
    + apply Forall_forall. intros q Hq.
      rewrite Forall_forall in Huni. specialize (Huni q Hq).
      destruct (elem_of_map_fst_pair q dp Hq) as [H1 H2].
      unfold doc_len, deref in *.
      rewrite !Hagree; [exact Huni| |]; unfold refs; rewrite elem_of_app;
        [right|left]; assumption.
Qed.

(** X4. Iterating a loader over documents that share nothing a second
    time yields the same batches and ends the same way, and it leaves
    the heap exactly as the first iteration left it: the padding done
    in place by the first iteration does not disturb the next one. *)
Theorem iterating_again_yields_the_same (self : SmartDataLoader) (h : heap) :
  alias_free (shuffled_pairs self) ->
  valid_refs h (refs (shuffled_pairs self)) ->
  exists h' ts e,
    __iter__ self h = (h', ts, e)
    /\ __iter__ self h' = (h', ts, e).
Proof.
  intros Haf Hv.
  set (n := self_n_sentences self). set (ps := shuffled_pairs self) in *.
  rewrite <- (take_drop n ps) in Haf, Hv.
  apply alias_free_app in Haf as (Haf & _ & _).
  apply valid_refs_app in Hv as [Hv _].
  destruct (walk_again (self_PAD_TOKEN self) (self_batch_size self)
              (if decide (length (take n ps ++ drop n ps) < n)
               then Some IndexError else None)
              (take n ps) h 0%Z [] Haf Hv) as (h' & ts & H1 & H2).
  rewrite take_drop in H1, H2.
  eexists h', ts, _. rewrite !iter_walk. split; [exact H1 | exact H2].
Qed.

(** X5. An iteration over documents that share nothing stops in one of
    two ways only: quietly, when the sentence count is within the
    shuffled pairs, or with an index error, when it exceeds them. In
    both cases every full batch among the pairs that exist within the
    sentence count has been yielded before. *)
Theorem iteration_ends_quietly_or_out_of_range
    (self : SmartDataLoader) (h : heap) :
  alias_free (shuffled_pairs self) ->
  valid_refs h (refs (shuffled_pairs self)) ->
  exists h' ts e,
    __iter__ self h = (h', ts, e)
    /\ (self_n_sentences self <= length (shuffled_pairs self) -> e = None)
    /\ (length (shuffled_pairs self) < self_n_sentences self ->
        e = Some IndexError)
    /\ length ts
       = Nat.min (self_n_sentences self) (length (shuffled_pairs self))
         / Z.to_nat (self_batch_size self).
Proof.
  intros Haf Hv. destruct (iter_spec self h Haf Hv) as [h' Hit].
  eexists h', _, _. split; [exact Hit|]. split; [|split].
  - intros Hle. apply decide_False. lia.
  - intros Hlt. apply decide_True. exact Hlt.
  - rewrite length_map, length_full_batches, length_take.
    unfold pair_values. rewrite length_map. reflexivity.
Qed.

(** The walk writes to the documents of the batches it completes, and
    to no other. *)
Lemma walk_touches_full_batches (pad batch_size : Z) (end_ : option PyErr)
    (ps : list (ref * ref)) :
  forall (h : heap) (collected : list (ref * ref)) (r : ref),
  length collected < Z.to_nat batch_size ->
  r ∉ refs (concat (full_batches (Z.to_nat batch_size) (collected ++ ps))) ->
  (walk pad batch_size end_ ps h (Z.of_nat (length collected)) collected).1.1
    !! r
  = h !! r.
Proof.
  induction ps as [|p rest IH]; intros h collected r Hc Hr; [reflexivity|].
  cbn [walk].
  assert (Happ : collected ++ p :: rest = (collected ++ [p]) ++ rest)
    by (rewrite <- app_assoc; reflexivity).
  rewrite Happ in Hr.
  assert (Hlen : length (collected ++ [p]) = length collected + 1)
    by (rewrite length_app; reflexivity).
  destruct (Z.eqb_spec (Z.of_nat (length collected) + 1) batch_size)
    as [Heq|Hne].
  - assert (HB : Z.to_nat batch_size = length (collected ++ [p])) by lia.
    rewrite full_batches_step in Hr
      by (rewrite ?length_app; simpl; lia).
    rewrite (take_app_length' _ _ _ HB), (drop_app_length' _ _ _ HB) in Hr.
    cbn [concat] in Hr. rewrite refs_app, elem_of_app in Hr.
    destruct (build_tensor_frame pad h (collected ++ [p])) as [_ Hfr].
    destruct (_build_tensor pad h (collected ++ [p])) as [h1 [t|e]];
      cbn [fst] in Hfr.
    + specialize (IH h1 [] r). cbn [length app] in IH.
      change (Z.of_nat 0) with 0%Z in IH.
      destruct (walk pad batch_size end_ rest h1 0 []) as [[h2 ts] e].
      cbn [fst] in *. rewrite IH by (lia || tauto). apply Hfr. tauto.
    + cbn [fst]. apply Hfr. tauto.
  - replace (Z.of_nat (length collected) + 1)%Z
      with (Z.of_nat (length (collected ++ [p]))) by lia.
    apply IH; [lia | exact Hr].
Qed.

Lemma walk_nonpos_heap (pad batch_size : Z) (end_ : option PyErr)
    (ps : list (ref * ref)) :
  forall (h : heap) (batch : Z) (collected : list (ref * ref)),
  (batch_size <= 0)%Z -> (0 <= batch)%Z ->
  (walk pad batch_size end_ ps h batch collected).1.1 = h.
Proof.
  induction ps as [|p rest IH]; intros h batch collected Hbs Hb;
    [reflexivity|].
  cbn [walk]. destruct (Z.eqb_spec (batch + 1) batch_size); [lia|].
  apply IH; lia.
Qed.

(** X6. An iteration never allocates and only ever writes to the
    documents of the batches it yields: a document of the trailing
    partial batch, a document beyond the sentence count, and any object
    that is not one of the loader's documents are all left as they
    were. *)
Theorem iteration_writes_yielded_batches_only
    (self : SmartDataLoader) (h : heap) :
  length (__iter__ self h).1.1 = length h
  /\ forall r : ref,
       r ∉ refs (concat (full_batches (Z.to_nat (self_batch_size self))
                           (take (self_n_sentences self)
                              (shuffled_pairs self)))) ->
       (__iter__ self h).1.1 !! r = h !! r.
Proof.
  rewrite iter_walk. split.
  - apply walk_frame.
  - intros r Hr.
    destruct (decide (self_batch_size self <= 0)%Z) as [Hle|Hpos].
    + rewrite walk_nonpos_heap by lia. reflexivity.
    + apply (walk_touches_full_batches _ _ _ _ h [] r); [simpl; lia|].
      exact Hr.
Qed.

(** ** Constructing *)

Lemma map_nth_seq_all {A : Type} (d : A) (x : list A) :
  map (fun i => nth i x d) (seq 0 (length x)) = x.
Proof.
  apply list_eq; intros i.
  change (map ?f ?l) with (f <$> l). rewrite list_lookup_fmap.
  destruct (decide (i < length x)) as [Hlt|Hge].
  - rewrite lookup_seq_lt by exact Hlt. simpl.
    destruct (lookup_lt_is_Some_2 x i Hlt) as [y Hy].
    rewrite Hy. f_equal. apply nth_lookup_Some, Hy.
  - rewrite lookup_seq_ge by lia. simpl.
    symmetry. apply lookup_ge_None. lia.
Qed.

Lemma length_deepcopy_docs (docs : list ref) :
  forall (memo : gmap ref ref) (h : heap),
  length (deepcopy_docs memo h docs).2 = length docs.
Proof.
  induction docs as [|r rest IH]; intros memo h; [reflexivity|].
  cbn [deepcopy_docs]. destruct (memo !! r) as [r'|].
  - specialize (IH memo h).
    destruct (deepcopy_docs memo h rest) as [h' out]. simpl in *. lia.
  - specialize (IH (<[r:=length h]> memo) (h ++ [deref h r])).
    destruct (deepcopy_docs _ (h ++ [deref h r]) rest) as [h' out].
    simpl in *. lia.
Qed.

Section MoreConstruction.
Context `{NumpyRandom}.

Lemma np_random_shuffle_indices {A : Type} (d : A) (g : rng_state)
    (x : list A) :
  (np_random_shuffle g x).1
  = map (fun i => nth i x d) (np_random_shuffle g (seq 0 (length x))).1.
Proof.
  rewrite <- np_random_shuffle_map, map_nth_seq_all. reflexivity.
Qed.

(** X7. The shuffle of a construction rearranges the paired corpus by a
    permutation of its indices that is drawn from the seed and the
    number of pairs alone: no pair is lost, repeated or split, and two
    corpora of the same size shuffled with the same seed are rearranged
    in the same way. *)
Theorem shuffle_order_from_seed_and_count
    (h : heap) (input_vocab output_vocab : Vocabulary) (batch_size : Z)
    (io oo : option (list ref)) (random_seed : Z)
    (h2 : heap) (g : rng_state) (self : SmartDataLoader) :
  corpus_ok h input_vocab output_vocab io oo ->
  __init__ h input_vocab output_vocab batch_size io oo random_seed
  = Ok (h2, g, self) ->
  let corpus := corpus_values h input_vocab output_vocab io oo in
  let order :=
    (np_random_shuffle (seed_state random_seed) (seq 0 (length corpus))).1 in
  order ≡ₚ seq 0 (length corpus)
  /\ pair_values h2 (shuffled_pairs self)
     = map (fun i => nth i corpus ([], [])) order
  /\ pair_values h2 (shuffled_pairs self) ≡ₚ corpus.
Proof.
  intros Hok Hinit corpus order.
  destruct (init_ok_spec _ _ _ _ _ _ _ _ _ _ Hok Hinit)
    as (_ & _ & _ & _ & _ & Hvals & _).
  fold corpus in Hvals. split; [|split].
  - apply np_random_shuffle_Permutation.
  - rewrite Hvals. apply np_random_shuffle_indices.
  - rewrite Hvals. apply np_random_shuffle_Permutation.
Qed.

(** X8. An explicit list given for one side only is ignored: the loader
    is observed exactly as if none had been given, walking the
    vocabularies' own documents. *)
Theorem lone_explicit_list_is_ignored
    (h : heap) (input_vocab output_vocab : Vocabulary) (batch_size : Z)
    (l : list ref) (random_seed : Z) :
  run h input_vocab output_vocab batch_size (Some l) None random_seed
  = run h input_vocab output_vocab batch_size None None random_seed
  /\ run h input_vocab output_vocab batch_size None (Some l) random_seed
     = run h input_vocab output_vocab batch_size None None random_seed.
Proof.
  unfold run, __init__.
  destruct (deepcopy h input_vocab) as [h1 v1].
  destruct (deepcopy h1 output_vocab) as [h2 v2].
  destruct (_shuffle_vocab_data random_seed v1 v2) as [[[g si] so]|e];
    [|split; reflexivity].
  cbn [mbind result_bind]. rewrite !iter_walk. split; reflexivity.
Qed.

(** X9. A corpus with no document on one side cannot be loaded: when
    the documents to be walked are missing on the input side or on the
    output side, construction raises a value error, as the zipped
    corpus is empty and cannot be unzipped into two orderings. *)
Theorem empty_side_construction_raises
    (h : heap) (input_vocab output_vocab : Vocabulary) (batch_size : Z)
    (io oo : option (list ref)) (random_seed : Z) :
  (corpus_refs input_vocab output_vocab io oo).1 = []
  \/ (corpus_refs input_vocab output_vocab io oo).2 = [] ->
  __init__ h input_vocab output_vocab batch_size io oo random_seed
  = Raise ValueError.
Proof.
  intros Hempty. unfold __init__, deepcopy.
  pose proof (length_deepcopy_docs (docs_tokens_encoded input_vocab) ∅ h)
    as Hl1.
  destruct (deepcopy_docs ∅ h (docs_tokens_encoded input_vocab)) as [h1 di].
  pose proof (length_deepcopy_docs (docs_tokens_encoded output_vocab) ∅ h1)
    as Hl2.
  destruct (deepcopy_docs ∅ h1 (docs_tokens_encoded output_vocab))
    as [h2 do_].
  cbn [snd] in Hl1, Hl2.
  assert (Hfin : forall v1 v2 : Vocabulary,
    zip (docs_tokens_encoded v1) (docs_tokens_encoded v2) = [] ->
    _shuffle_vocab_data random_seed v1 v2 = Raise ValueError).
  { intros v1 v2 Hz. unfold _shuffle_vocab_data, np_random_seed. rewrite Hz.
    destruct (_ && _); reflexivity. }
  assert (Hzip : forall (a b : list ref), a = [] \/ b = [] -> zip a b = []).
  { intros a b [-> | ->]; [reflexivity | destruct a; reflexivity]. }
  assert (Hnil : forall (a b : list ref), length a = length b -> b = [] -> a = []).
  { intros a b Hl ->. destruct a; [reflexivity | discriminate]. }
  unfold corpus_refs in Hempty.
  destruct io as [i|], oo as [o|]; cbn [fst snd] in Hempty;
    rewrite Hfin; try reflexivity; cbn [set_docs docs_tokens_encoded];
    apply Hzip; destruct Hempty as [He|He]; eauto.
Qed.
End MoreConstruction.

(** ** Concrete runs of the further properties *)

Lemma short_batch_ok :
  doc_pairs_short <> []
  /\ valid_refs heap_short (refs doc_pairs_short)
  /\ sides_apart doc_pairs_short.
Proof.
  split; [discriminate|]. split.
  - unfold valid_refs. apply (bool_decide_unpack _); vm_compute; exact I.
  - apply alias_free_sides_apart. unfold alias_free.
    apply (bool_decide_unpack _); vm_compute; exact I.
Qed.

Lemma build_tensor_pads_in_place_witness :
  (doc_pairs_short <> []
   /\ valid_refs heap_short (refs doc_pairs_short)
   /\ sides_apart doc_pairs_short)
  /\ exists h' t,
       _build_tensor 0 heap_short doc_pairs_short = (h', Ok t)
       /\ length h' = length heap_short
       /\ (forall a d, a ∈ map fst doc_pairs_short ->
             heap_short !! a = Some d ->
             h' !! a
             = Some (pads_before_last 0%Z
                       (max_list_with length
                          (map (deref heap_short) (map fst doc_pairs_short))
                        - length d) d)
             /\ doc_len h' a
                = max_list_with length
                    (map (deref heap_short) (map fst doc_pairs_short)))
       /\ (forall b d, b ∈ map snd doc_pairs_short ->
             heap_short !! b = Some d ->
             h' !! b
             = Some (pads_before_last 0%Z
                       (max_list_with length
                          (map (deref heap_short) (map snd doc_pairs_short))
                        - length d) d)
             /\ doc_len h' b
                = max_list_with length
                    (map (deref heap_short) (map snd doc_pairs_short)))
       /\ (forall r, r ∉ refs doc_pairs_short -> h' !! r = heap_short !! r).
Proof.
  split; [exact short_batch_ok|].
  destruct short_batch_ok as (Hne & Hv & Hs).
  exact (build_tensor_pads_in_place 0 heap_short doc_pairs_short Hne Hv Hs).
Defined.

Lemma build_tensor_twice_witness :
  (doc_pairs_short <> []
   /\ valid_refs heap_short (refs doc_pairs_short)
   /\ sides_apart doc_pairs_short)
  /\ exists h' t,
       _build_tensor 0 heap_short doc_pairs_short = (h', Ok t)
       /\ _build_tensor 0 h' doc_pairs_short = (h', Ok t).
Proof.
  split; [exact short_batch_ok|].
  destruct short_batch_ok as (Hne & Hv & Hs).
  exact (build_tensor_twice 0 heap_short doc_pairs_short Hne Hv Hs).
Defined.

Lemma batch_size_one_never_pads_witness :
  self_batch_size (loader3 1) = 1%Z
  /\ exists ts,
       __iter__ (loader3 1) heap3_copied
       = (heap3_copied, ts,
          if decide (length (shuffled_pairs (loader3 1))
                     < self_n_sentences (loader3 1))
          then Some IndexError else None)
       /\ Forall2
            (fun v t =>
               column t.1 0 = v.1 /\ column t.2 0 = v.2
               /\ shape t.1 = [length v.1; 1]
               /\ shape t.2 = [length v.2; 1])
            (take (self_n_sentences (loader3 1))
               (pair_values heap3_copied (shuffled_pairs (loader3 1))))
            ts.
Proof.
  split; [reflexivity|].
  apply (batch_size_one_never_pads (loader3 1) heap3_copied). reflexivity.
Defined.

Lemma loader3_ok (batch_size : Z) :
  alias_free (shuffled_pairs (loader3 batch_size))
  /\ valid_refs heap3_copied (refs (shuffled_pairs (loader3 batch_size))).
Proof.
  split; [unfold alias_free | unfold valid_refs];
    apply (bool_decide_unpack _); vm_compute; exact I.
Qed.

Lemma iterating_again_yields_the_same_witness :
  (alias_free (shuffled_pairs (loader3 2))
   /\ valid_refs heap3_copied (refs (shuffled_pairs (loader3 2))))
  /\ exists h' ts e,
       __iter__ (loader3 2) heap3_copied = (h', ts, e)
       /\ __iter__ (loader3 2) h' = (h', ts, e).
Proof.
  split; [exact (loader3_ok 2)|].
  destruct (loader3_ok 2) as [Haf Hv].
  exact (iterating_again_yields_the_same (loader3 2) heap3_copied Haf Hv).
Defined.

Lemma iteration_ends_quietly_or_out_of_range_witness :
  (alias_free (shuffled_pairs (loader3 2))
   /\ valid_refs heap3_copied (refs (shuffled_pairs (loader3 2))))
  /\ exists h' ts e,
       __iter__ (loader3 2) heap3_copied = (h', ts, e)
       /\ (self_n_sentences (loader3 2)
           <= length (shuffled_pairs (loader3 2)) -> e = None)
       /\ (length (shuffled_pairs (loader3 2))
           < self_n_sentences (loader3 2) -> e = Some IndexError)
       /\ length ts
          = Nat.min (self_n_sentences (loader3 2))
              (length (shuffled_pairs (loader3 2)))
            / Z.to_nat (self_batch_size (loader3 2)).
Proof.
  split; [exact (loader3_ok 2)|].
  destruct (loader3_ok 2) as [Haf Hv].
  exact (iteration_ends_quietly_or_out_of_range (loader3 2) heap3_copied
           Haf Hv).
Defined.

Lemma shuffle_order_from_seed_and_count_witness :
  corpus_ok heap3 input_vocab3 output_vocab3 None None
  /\ (np_random_shuffle (H:=lcg) (seed_state 0)
        (seq 0 (length (corpus_values heap3 input_vocab3 output_vocab3
                          None None)))).1
     ≡ₚ seq 0 (length (corpus_values heap3 input_vocab3 output_vocab3
                         None None))
  /\ pair_values heap3_copied (shuffled_pairs (loader3 2))
     = map (fun i => nth i (corpus_values heap3 input_vocab3 output_vocab3
                              None None) ([], []))
         (np_random_shuffle (H:=lcg) (seed_state 0)
            (seq 0 (length (corpus_values heap3 input_vocab3 output_vocab3
                              None None)))).1
  /\ pair_values heap3_copied (shuffled_pairs (loader3 2))
     ≡ₚ corpus_values heap3 input_vocab3 output_vocab3 None None.
Proof.
  split; [exact corpus_ok3|].
  apply (shuffle_order_from_seed_and_count (H:=lcg) heap3 input_vocab3
           output_vocab3 2 None None 0 heap3_copied lcg_state3 (loader3 2)).
  - exact corpus_ok3.
  - reflexivity.
Defined.

Lemma empty_side_construction_raises_witness :
  ((corpus_refs input_vocab_one output_vocab_none None None).1 = []
   \/ (corpus_refs input_vocab_one output_vocab_none None None).2 = [])
  /\ __init__ (H:=lcg) heap_more input_vocab_one output_vocab_none 1
       None None 0
     = Raise ValueError.
Proof.
  split; [right; reflexivity|].
  apply (empty_side_construction_raises (H:=lcg) heap_more input_vocab_one
           output_vocab_none 1 None None 0).
  right. reflexivity.
Defined.

Lemma caller_documents_unchanged_witness :
  (@None (list nat) = None \/ @None (list nat) = None)
  /\ take (length heap3) heap3_copied = heap3
  /\ forall hx : list (list Z),
       take (length heap3) hx = heap3 ->
       take (length heap3) (__iter__ (loader3 2) hx).1.1 = heap3.
Proof.
  split; [left; reflexivity|].
  apply (caller_documents_unchanged (H:=lcg) heap3 input_vocab3 output_vocab3
           2 None None 0 heap3_copied lcg_state3 (loader3 2)).
  - left. reflexivity.
  - reflexivity.
Defined.

(** ** The length contract and the sentence count *)

Section LengthContract.
Context `{NumpyRandom}.

(** C2, on the code. The length contract is broken where the sentence
    count is: over a corpus of two explicit pairs with batch size one,
    [2 // 1] batches are due, but the loader, constructed over
    vocabularies of one sentence, reports a length of one, yields one
    batch and never emits the second shuffled pair, whatever the
    shuffle did. Over the empty corpus there is no loader to iterate:
    construction raises. *)
Theorem length_contract_broken_by_sentence_count :
  (exists h2 g self h' ts,
     __init__ heap_more input_vocab_one output_vocab_one 1
       (Some [2; 3]) (Some [4; 5]) 0
     = Ok (h2, g, self)
     /\ length (pair_values h2 (shuffled_pairs self)) = 2
     /\ __len__ self = Ok 1%Z
     /\ __len__ self <> Ok (Z.of_nat 2 / 1)%Z
     /\ __iter__ self h2 = (h', ts, None)
     /\ length ts = 1
     /\ Z.of_nat (length ts) <> (Z.of_nat 2 / 1)%Z)
  /\ __init__ heap_more output_vocab_none output_vocab_none 1 None None 0
     = Raise ValueError.
Proof.
  split.
  - unfold __init__, deepcopy, _shuffle_vocab_data, np_random_seed,
      np_random_shuffle.
    simpl.
    destruct (random_interval (seed_state 0) 1) as [j g'].
    destruct j as [|[|j]]; eexists _, _, _, _, _;
      (split; [reflexivity|]);
      repeat split; try reflexivity; discriminate.
  - reflexivity.
Qed.
End LengthContract.
